(** * Vent Beat Simulator Vol.2: the rotary collision detector and the
      impact-mapping functions of [main.js]

    A shallow embedding of the simulation core of [main.js] and the
    properties its specification states about it.

    Modelling conventions.
    - A JavaScript number is a binary64 float.  Rounding is not modelled:
      a finite number is an exact rational ([Q]), and the decimal literals
      of the source ([0.25], [0.01], [1e-5], [0.15]) are the rationals they
      denote.  [Math.PI] is the rational value of the binary64 constant.
      Signed zero is not modelled.
    - The gate ([registerCollision]) and the two mappers
      ([getImpactStrength], [getSoftHitLowCutFactor]) coerce what they read
      with [Number(x) || 0]; they are modelled on every JavaScript number
      ([num]: finite, [Infinity], [-Infinity], [NaN]) and, for the mappers'
      argument, on the primitive values ([value]).
    - Kinematic quantities (time, angles, rpm, jitter amounts) are finite
      numbers, as the range sliders that feed them produce; they are [Q].
      On a finite number [Number(x) || 0] is the identity.
    - [Math.sin], [Math.random], [performance.now] and the reading of a
      string as a number are parameters of the model. *)

From Stdlib Require Import QArith Qround Qabs Lqa ZArith Lia String.
From stdpp Require Import base list.

Local Open Scope Q_scope.

(** ** Rational helpers *)

Definition Qltb (a b : Q) : bool := if Qlt_le_dec a b then true else false.
Definition Qleb (a b : Q) : bool := if Qlt_le_dec b a then false else true.

(** [Math.trunc] on a finite number: rounding towards zero. *)
Definition Qtrunc (a : Q) : Z :=
  if Qlt_le_dec a 0 then Qceiling a else Qfloor a.

(** The [%] operator on finite numbers with a non-zero divisor: the
    remainder has the sign of the dividend. *)
Definition js_rem (a m : Q) : Q := a - m * inject_Z (Qtrunc (a / m)).

(** The mathematical residue, in [[0, m)] for [0 < m]. *)
Definition Qmod (a m : Q) : Q := a - m * inject_Z (Qfloor (a / m)).

(** ** Constants of [main.js] *)

Definition Math_PI : Q := 884279719003555 # 281474976710656.
Definition TWO_PI : Q := Math_PI * 2.
Definition HIT_ANGLE_TOL : Q := 25 # 100.
Definition COLLISION_COOLDOWN : Q := 0.

(** ** JavaScript numbers and primitive values *)

Inductive num : Type :=
| Fin (q : Q)
| PInf
| NInf
| NaN.

Inductive value : Type :=
| VUndefined
| VNull
| VBool (b : bool)
| VNum (n : num)
| VStr (s : string).

(** Equality of numbers as values (finite numbers up to [==]). *)
Definition num_eq (x y : num) : Prop :=
  match x, y with
  | Fin a, Fin b => a == b
  | PInf, PInf | NInf, NInf | NaN, NaN => True
  | _, _ => False
  end.

Definition is_finite (x : num) : bool :=
  match x with Fin _ => true | _ => false end.

Definition nneg (x : num) : num :=
  match x with
  | Fin a => Fin (- a)
  | PInf => NInf
  | NInf => PInf
  | NaN => NaN
  end.

Definition nadd (x y : num) : num :=
  match x, y with
  | NaN, _ | _, NaN => NaN
  | Fin a, Fin b => Fin (a + b)
  | PInf, NInf | NInf, PInf => NaN
  | PInf, _ | _, PInf => PInf
  | NInf, _ | _, NInf => NInf
  end.

Definition nsub (x y : num) : num := nadd x (nneg y).

(** Sign of a number that is not [NaN]. *)
Definition nsign (x : num) : comparison :=
  match x with
  | Fin a => a ?= 0
  | PInf => Gt
  | NInf => Lt
  | NaN => Eq
  end.

Definition nmul (x y : num) : num :=
  match x, y with
  | NaN, _ | _, NaN => NaN
  | Fin a, Fin b => Fin (a * b)
  | _, _ =>
      match nsign x, nsign y with
      | Eq, _ | _, Eq => NaN
      | Gt, Gt | Lt, Lt => PInf
      | _, _ => NInf
      end
  end.

Definition ndiv (x y : num) : num :=
  match x, y with
  | NaN, _ | _, NaN => NaN
  | Fin a, Fin b =>
      if Qeq_bool b 0 then
        match a ?= 0 with Eq => NaN | Gt => PInf | Lt => NInf end
      else Fin (a / b)
  | Fin _, _ => Fin 0
  | _, Fin b => match nsign x, Qltb b 0 with
                | Gt, false | Lt, true => PInf
                | _, _ => NInf
                end
  | _, _ => NaN
  end.

(** [x < y]; false as soon as one side is [NaN]. *)
Definition nlt (x y : num) : bool :=
  match x, y with
  | NaN, _ | _, NaN => false
  | Fin a, Fin b => Qltb a b
  | NInf, NInf | PInf, _ => false
  | NInf, _ => true
  | Fin _, PInf => true
  | Fin _, NInf => false
  end.

Definition ngt (x y : num) : bool := nlt y x.

(** [x <= y]; false as soon as one side is [NaN]. *)
Definition nle (x y : num) : bool :=
  match x, y with
  | NaN, _ | _, NaN => false
  | Fin a, Fin b => Qleb a b
  | NInf, _ | _, PInf => true
  | _, _ => false
  end.

Definition Math_max (x y : num) : num :=
  match x, y with
  | NaN, _ | _, NaN => NaN
  | _, _ => if nlt x y then y else x
  end.

Definition Math_min (x y : num) : num :=
  match x, y with
  | NaN, _ | _, NaN => NaN
  | _, _ => if nlt y x then y else x
  end.

(** [clamp(value, min, max) = Math.min(Math.max(value, min), max)]. *)
Definition clamp (v lo hi : num) : num := Math_min (Math_max v lo) hi.

(** The same three functions on finite numbers. *)
Definition Q_max (a b : Q) : Q := if Qltb a b then b else a.
Definition Q_min (a b : Q) : Q := if Qltb b a then b else a.
Definition Qclamp (v lo hi : Q) : Q := Q_min (Q_max v lo) hi.

(** Truthiness of a number: [0] and [NaN] are falsy. *)
Definition truthy (x : num) : bool :=
  match x with
  | Fin a => negb (Qeq_bool a 0)
  | NaN => false
  | _ => true
  end.

(** [x || 0] on a number. *)
Definition or0 (x : num) : num := if truthy x then x else Fin 0.

Section Coercion.
(** The numeric reading of a string ([StringToNumber] of ECMAScript). *)
Variable StringToNumber : string -> num.

(** [Number(v)] on a primitive value. *)
Definition Number (v : value) : num :=
  match v with
  | VUndefined => NaN
  | VNull => Fin 0
  | VBool true => Fin 1
  | VBool false => Fin 0
  | VNum n => n
  | VStr s => StringToNumber s
  end.

(** A parameter with the default [= 0]: the default replaces
    [undefined] only. *)
Definition default0 (v : value) : value :=
  match v with VUndefined => VNum (Fin 0) | _ => v end.
End Coercion.

(** ** [smallestAngleDiff] *)

(** [while (d > Math.PI) d -= TWO_PI;] with a bound on the iterations. *)
Fixpoint reduce_down (fuel : nat) (d : Q) : option Q :=
  if Qlt_le_dec Math_PI d then
    match fuel with
    | O => None
    | S f => reduce_down f (d - TWO_PI)
    end
  else Some d.

(** [while (d < -Math.PI) d += TWO_PI;] with a bound on the iterations. *)
Fixpoint reduce_up (fuel : nat) (d : Q) : option Q :=
  if Qlt_le_dec d (- Math_PI) then
    match fuel with
    | O => None
    | S f => reduce_up f (d + TWO_PI)
    end
  else Some d.

Definition smallestAngleDiff_fuel (fuel : nat) (a b : Q) : option Q :=
  match reduce_down fuel (a - b) with
  | Some d => reduce_up fuel d
  | None => None
  end.

(** Iterations that suffice for a difference [d]. *)
Definition turns (d : Q) : nat := Z.to_nat (Qceiling (Qabs d / TWO_PI)).

(** The function itself: the loops run with enough iterations to
    finish, so the second branch is never taken. *)
Definition smallestAngleDiff (a b : Q) : Q :=
  match smallestAngleDiff_fuel (turns (a - b)) a b with
  | Some d => d
  | None => a - b
  end.

(** ** The [state] object, the obstacles and the module-level variables *)

Inductive VoiceMode : Type := mono | poly.

(** The [state] object.  The fields the code coerces before use are
    [num]; the kinematic ones are finite. *)
Record State : Type := {
  running : bool;
  rpm : Q;
  bladeCount : Z;
  axisJitter : Q;
  timingJitter : Q;
  softHitLowCut : num;
  hitThreshold : num;
  obstacleCount : Z;
  wobbleFreqHz : Q;
  tailMs : num;
  voiceMode : VoiceMode;
  impactDynamics : num
}.

Record Obstacle : Type := {
  angle : Q;
  sampleIndex : Z;
  volume : Q;
  enabled : bool
}.

(** The fields of an obstacle, under names that a local [angle] does not
    hide. *)
Definition obstacle_angle (o : Obstacle) : Q := angle o.
Definition obstacle_sampleIndex (o : Obstacle) : Z := sampleIndex o.
Definition obstacle_volume (o : Obstacle) : Q := volume o.
Definition obstacle_enabled (o : Obstacle) : bool := enabled o.

(** What [registerCollision] did with a hit: returned at the gate, or
    went on with the normalised strength and the impact value;
    [played] tells whether [playClick] was reached. *)
Inductive Outcome : Type :=
| Discarded
| Accepted (strength impact : num) (played : bool).

(** One call of [registerCollision] from [stepSimulation], with the
    simulation time and the revolution index of the sub-step. *)
Record Collision : Type := {
  c_time : Q;
  c_rev : Z;
  c_blade : nat;
  c_obstacle : nat;
  c_raw : Q;
  c_outcome : Outcome
}.

(** One blade pass of a sub-step: the nominal angle and the wobble. *)
Record Sample : Type := {
  s_time : Q;
  s_blade : nat;
  s_angle : Q;
  s_wobble : Q
}.

(** The module-level [let] variables that the simulation mutates,
    followed by the bookkeeping of the model: how many times
    [Math.random] and [performance.now] were called, and the two logs
    (most recent entry first). *)
Record World : Type := {
  wasInHitZone : list (list bool);
  wobblePhasePerBlade : list Q;
  lastHitRev : list (list num);
  hitCount : nat;
  lastHitRateLogTime : Q;
  simTime : Q;
  lastCollisionSimTime : num;
  audioContext : bool;
  randomDraws : nat;
  clockReads : nat;
  samples : list Sample;
  collisions : list Collision
}.

(** The variables as [main.js] initialises them. *)
Definition initial_world : World := {|
  wasInHitZone := [];
  wobblePhasePerBlade := [];
  lastHitRev := [];
  hitCount := 0;
  lastHitRateLogTime := 0;
  simTime := 0;
  lastCollisionSimTime := NInf;
  audioContext := false;
  randomDraws := 0;
  clockReads := 0;
  samples := [];
  collisions := []
|}.

Definition set_wasInHitZone (v : list (list bool)) (w : World) : World :=
  {| wasInHitZone := v; wobblePhasePerBlade := wobblePhasePerBlade w;
     lastHitRev := lastHitRev w; hitCount := hitCount w;
     lastHitRateLogTime := lastHitRateLogTime w; simTime := simTime w;
     lastCollisionSimTime := lastCollisionSimTime w;
     audioContext := audioContext w; randomDraws := randomDraws w;
     clockReads := clockReads w; samples := samples w;
     collisions := collisions w |}.

Definition set_wobblePhasePerBlade (v : list Q) (w : World) : World :=
  {| wasInHitZone := wasInHitZone w; wobblePhasePerBlade := v;
     lastHitRev := lastHitRev w; hitCount := hitCount w;
     lastHitRateLogTime := lastHitRateLogTime w; simTime := simTime w;
     lastCollisionSimTime := lastCollisionSimTime w;
     audioContext := audioContext w; randomDraws := randomDraws w;
     clockReads := clockReads w; samples := samples w;
     collisions := collisions w |}.

Definition set_lastHitRev (v : list (list num)) (w : World) : World :=
  {| wasInHitZone := wasInHitZone w;
     wobblePhasePerBlade := wobblePhasePerBlade w;
     lastHitRev := v; hitCount := hitCount w;
     lastHitRateLogTime := lastHitRateLogTime w; simTime := simTime w;
     lastCollisionSimTime := lastCollisionSimTime w;
     audioContext := audioContext w; randomDraws := randomDraws w;
     clockReads := clockReads w; samples := samples w;
     collisions := collisions w |}.

(** [hitCount] and [lastHitRateLogTime] change together with a reading
    of the clock. *)
Definition set_hitRate (n : nat) (t : Q) (w : World) : World :=
  {| wasInHitZone := wasInHitZone w;
     wobblePhasePerBlade := wobblePhasePerBlade w;
     lastHitRev := lastHitRev w; hitCount := n;
     lastHitRateLogTime := t; simTime := simTime w;
     lastCollisionSimTime := lastCollisionSimTime w;
     audioContext := audioContext w; randomDraws := randomDraws w;
     clockReads := S (clockReads w); samples := samples w;
     collisions := collisions w |}.

Definition set_simTime (t : Q) (w : World) : World :=
  {| wasInHitZone := wasInHitZone w;
     wobblePhasePerBlade := wobblePhasePerBlade w;
     lastHitRev := lastHitRev w; hitCount := hitCount w;
     lastHitRateLogTime := lastHitRateLogTime w; simTime := t;
     lastCollisionSimTime := lastCollisionSimTime w;
     audioContext := audioContext w; randomDraws := randomDraws w;
     clockReads := clockReads w; samples := samples w;
     collisions := collisions w |}.

Definition set_lastCollisionSimTime (t : num) (w : World) : World :=
  {| wasInHitZone := wasInHitZone w;
     wobblePhasePerBlade := wobblePhasePerBlade w;
     lastHitRev := lastHitRev w; hitCount := hitCount w;
     lastHitRateLogTime := lastHitRateLogTime w; simTime := simTime w;
     lastCollisionSimTime := t;
     audioContext := audioContext w; randomDraws := randomDraws w;
     clockReads := clockReads w; samples := samples w;
     collisions := collisions w |}.

(** A blade pass is logged together with its draw of [Math.random]. *)
Definition log_sample (s : Sample) (w : World) : World :=
  {| wasInHitZone := wasInHitZone w;
     wobblePhasePerBlade := wobblePhasePerBlade w;
     lastHitRev := lastHitRev w; hitCount := hitCount w;
     lastHitRateLogTime := lastHitRateLogTime w; simTime := simTime w;
     lastCollisionSimTime := lastCollisionSimTime w;
     audioContext := audioContext w; randomDraws := S (randomDraws w);
     clockReads := clockReads w; samples := s :: samples w;
     collisions := collisions w |}.

Definition log_collision (c : Collision) (w : World) : World :=
  {| wasInHitZone := wasInHitZone w;
     wobblePhasePerBlade := wobblePhasePerBlade w;
     lastHitRev := lastHitRev w; hitCount := hitCount w;
     lastHitRateLogTime := lastHitRateLogTime w; simTime := simTime w;
     lastCollisionSimTime := lastCollisionSimTime w;
     audioContext := audioContext w; randomDraws := randomDraws w;
     clockReads := clockReads w; samples := samples w;
     collisions := c :: collisions w |}.

(** ** Arrays and loops *)

(** [a[i] = v] on a JavaScript array: in range it replaces the element,
    beyond the end the array grows, the skipped positions reading as
    [hole]. *)
Definition array_set {A : Type} (hole : A) (i : nat) (v : A)
    (l : list A) : list A :=
  if decide (i < length l)%nat then <[i := v]> l
  else l ++ replicate (i - length l) hole ++ [v].

(** [a[b]?.[o] ?? d]. *)
Definition read2 {A : Type} (d : A) (rows : list (list A)) (b o : nat) : A :=
  match rows !! b with
  | Some row => default d (row !! o)
  | None => d
  end.

(** [if (!a[b]) a[b] = new Array(m).fill(d);]  A row is missing only
    beyond the end of the table, which [ensureHitStateSize] rules out
    for the blades of a step; were it to happen, the rows skipped would
    read as empty ones. *)
Definition ensure_row {A : Type} (d : A) (m b : nat)
    (rows : list (list A)) : list (list A) :=
  match rows !! b with
  | Some _ => rows
  | None => array_set [] b (replicate m d) rows
  end.

(** [a[b][o] = v]; every use follows [ensure_row], so the row is
    there. *)
Definition write2 {A : Type} (d : A) (b o : nat) (v : A)
    (rows : list (list A)) : list (list A) :=
  match rows !! b with
  | Some row => <[b := array_set d o v row]> rows
  | None => rows
  end.

(** [for (let i = start; i < start + count; i++) body(i)]. *)
Fixpoint for_loop {S : Type} (start count : nat)
    (body : nat -> S -> S) (s : S) : S :=
  match count with
  | O => s
  | Datatypes.S k => for_loop (Datatypes.S start) k body (body start s)
  end.

(** ** The simulation core *)

Section Core.
(** The host functions the core calls. *)
Variable StringToNumber : string -> num.
Variable sin : Q -> Q.
(** The [k]-th result of [Math.random()] and of [performance.now()]. *)
Variable random : nat -> Q.
Variable performance_now : nat -> Q.

(** *** Impact/tone mappers *)

Definition getSoftHitLowCutFactor (st : State) (strength : value) : num :=
  let strength := default0 strength in
  let bias :=
    clamp (or0 (Number StringToNumber (VNum (softHitLowCut st))))
          (Fin 0) (Fin 1) in
  let strength01 :=
    clamp (or0 (Number StringToNumber strength)) (Fin 0) (Fin 1) in
  let softness := nsub (Fin 1) strength01 in
  nmul bias softness.

Definition getImpactStrength (st : State) (rawStrength : value) : num :=
  let rawStrength := default0 rawStrength in
  let dyn :=
    clamp (or0 (Number StringToNumber (VNum (impactDynamics st))))
          (Fin 0) (Fin 1) in
  let r := clamp (or0 (Number StringToNumber rawStrength)) (Fin 0) (Fin 1) in
  nsub (Fin 1) (nmul dyn (nsub (Fin 1) r)).

(** *** Hit gate and normaliser *)

(** The threshold the gate compares with. *)
Definition gate_threshold (st : State) : num :=
  clamp (or0 (Number StringToNumber (VNum (hitThreshold st))))
        (Fin 0) (Fin 1).

Definition registerCollision (st : State) (rawStrength : num)
    (obstacle : Obstacle) (bladeIndex obstacleIndex : nat)
    (w : World) : World * Outcome :=
  let minStrength := Fin (1 # 100) in
  if nlt rawStrength minStrength then (w, Discarded) else
  let threshold := gate_threshold st in
  if nlt rawStrength threshold then (w, Discarded) else
  let denom := nsub (Fin 1) threshold in
  let normStrength :=
    if nle denom (Fin (1 # 100000)) then Fin 1
    else ndiv (nsub rawStrength threshold) denom in
  let strength := clamp normStrength (Fin 0) (Fin 1) in
  let impact := getImpactStrength st (VNum strength) in
  let nowMs := performance_now (clockReads w) in
  let w :=
    if Qltb 1000 (nowMs - lastHitRateLogTime w)
    then set_hitRate 0 nowMs w
    else set_hitRate (S (hitCount w)) (lastHitRateLogTime w) w in
  if negb (audioContext w) || negb (running st)
  then (w, Accepted strength impact false)
  else if Qltb 0 COLLISION_COOLDOWN
          && nlt (nsub (Fin (simTime w)) (lastCollisionSimTime w))
                 (Fin COLLISION_COOLDOWN)
  then (w, Accepted strength impact false)
  else (set_lastCollisionSimTime (Fin (simTime w)) w,
        Accepted strength impact true).

(** *** Resetting and resizing the per-pair state *)

Definition resetHitStates (st : State) (obstacles : list Obstacle)
    (w : World) : World :=
  let m := length obstacles in
  let w := set_lastHitRev [] (set_wasInHitZone [] w) in
  for_loop 0 (Z.to_nat (bladeCount st))
    (fun b w =>
       let w :=
         set_wasInHitZone
           (array_set [] b (replicate m false) (wasInHitZone w)) w in
       set_lastHitRev
         (array_set [] b (replicate m NInf) (lastHitRev w)) w)
    w.

(** The row test of [ensureHitStateSize]: present and of the right
    length. *)
Definition row_sized {A : Type} (rows : list (list A)) (m b : nat) : bool :=
  match rows !! b with
  | Some row => Nat.eqb (length row) m
  | None => false
  end.

Definition ensureHitStateSize (st : State) (obstacles : list Obstacle)
    (w : World) : World :=
  let m := length obstacles in
  if negb (Z.of_nat (length (wasInHitZone w)) =? bladeCount st)%Z
     || negb (Z.of_nat (length (lastHitRev w)) =? bladeCount st)%Z
  then resetHitStates st obstacles w
  else if forallb
            (fun b => row_sized (wasInHitZone w) m b
                      && row_sized (lastHitRev w) m b)
            (seq 0 (Z.to_nat (bladeCount st)))
  then w
  else resetHitStates st obstacles w.

Definition resetWobblePhases (st : State) (w : World) : World :=
  let w := set_wobblePhasePerBlade [] w in
  let bladeCount := bladeCount st in
  if (bladeCount <=? 0)%Z then w else
  for_loop 0 (Z.to_nat bladeCount)
    (fun b w =>
       set_wobblePhasePerBlade
         (array_set 0 b ((TWO_PI * inject_Z (Z.of_nat b))
                         / inject_Z bladeCount)
                    (wobblePhasePerBlade w)) w)
    w.

Definition ensureWobblePhaseSize (st : State) (w : World) : World :=
  if negb (Z.of_nat (length (wobblePhasePerBlade w)) =? bladeCount st)%Z
  then resetWobblePhases st w
  else w.


(** *** [stepSimulation] *)

(** The nominal angle of blade [b] for the base angle of a sub-step. *)
Definition blade_angle (st : State) (baseAngle : Q) (b : nat) : Q :=
  js_rem (baseAngle
          + (TWO_PI * inject_Z (Z.of_nat b)) / inject_Z (bladeCount st))
         TWO_PI.

(** The raw strength of a wobble-adjusted blade angle against an
    obstacle angle. *)
Definition raw_strength (wobbleAdjustedAngle obstacleAngle : Q) : Q :=
  let angleDiff := smallestAngleDiff wobbleAdjustedAngle obstacleAngle in
  let effective := Qabs angleDiff in
  Qclamp (1 - effective / HIT_ANGLE_TOL) 0 1.

(** The body of the obstacle loop, for blade [b] and obstacle [o]. *)
Definition pair_pass (st : State) (m : nat) (revIndex : Z)
    (b : nat) (angle wobble : Q) (o : nat) (obs : Obstacle)
    (w : World) : World :=
  let wobbleAdjustedAngle := angle + wobble in
  let rawStrength := raw_strength wobbleAdjustedAngle (obstacle_angle obs) in
  let inZone := Qltb 0 rawStrength in
  let prev := read2 false (wasInHitZone w) b o in
  let w :=
    if negb prev && inZone then
      let w := set_lastHitRev (ensure_row NInf m b (lastHitRev w)) w in
      let lastRev := read2 NInf (lastHitRev w) b o in
      if ngt (Fin (inject_Z revIndex)) lastRev then
        let '(w, outcome) :=
          registerCollision st (Fin rawStrength) obs b o w in
        let w :=
          log_collision
            {| c_time := simTime w; c_rev := revIndex; c_blade := b;
               c_obstacle := o; c_raw := rawStrength;
               c_outcome := outcome |} w in
        set_lastHitRev
          (write2 NInf b o (Fin (inject_Z revIndex)) (lastHitRev w)) w
      else w
    else w in
  let w := set_wasInHitZone (ensure_row false m b (wasInHitZone w)) w in
  set_wasInHitZone (write2 false b o inZone (wasInHitZone w)) w.

(** [for (let o = 0; o < obstacles.length; o += 1) { const obs =
    obstacles[o]; ... }], from index [o] on. *)
Fixpoint obstacle_loop (st : State) (m : nat) (revIndex : Z)
    (b : nat) (angle wobble : Q) (o : nat) (rest : list Obstacle)
    (w : World) : World :=
  match rest with
  | [] => w
  | obs :: rest =>
      obstacle_loop st m revIndex b angle wobble (S o) rest
        (pair_pass st m revIndex b angle wobble o obs w)
  end.

Definition noiseRatio : Q := 15 # 100.

(** The wobble of blade [b] in the current sub-step, for the draw [u]
    of [Math.random()]. *)
Definition blade_wobble (st : State) (wobbleOmega jitterFactor : Q)
    (w : World) (b : nat) (u : Q) : Q :=
  let phase := default 0 (wobblePhasePerBlade w !! b) in
  let deterministicWobble :=
    axisJitter st * sin (wobbleOmega * simTime w + phase) in
  let noise := axisJitter st * noiseRatio * jitterFactor * (u * 2 - 1) in
  deterministicWobble + noise.

(** The body of the blade loop. *)
Definition blade_pass (st : State) (obstacles : list Obstacle)
    (baseAngle : Q) (revIndex : Z) (wobbleOmega jitterFactor : Q)
    (b : nat) (w : World) : World :=
  let angle := blade_angle st baseAngle b in
  let wobble :=
    blade_wobble st wobbleOmega jitterFactor w b (random (randomDraws w)) in
  let w :=
    log_sample {| s_time := simTime w; s_blade := b; s_angle := angle;
                  s_wobble := wobble |} w in
  obstacle_loop st (length obstacles) revIndex b angle wobble
    0 obstacles w.

(** The body of the sub-step loop. *)
Definition substep (st : State) (obstacles : list Obstacle)
    (omega h wobbleOmega jitterFactor : Q) (w : World) : World :=
  let w := set_simTime (simTime w + h) w in
  let baseAngle := omega * simTime w in
  let revIndex := Qfloor (baseAngle / TWO_PI) in
  for_loop 0 (Z.to_nat (bladeCount st))
    (blade_pass st obstacles baseAngle revIndex wobbleOmega jitterFactor)
    w.

Definition stepSimulation (st : State) (obstacles : list Obstacle)
    (dt : Q) (w : World) : World :=
  if Qleb dt 0 then w else
  let omega := (rpm st / 60) * TWO_PI in
  if Qleb omega 0 then w else
  let substeps := 4%nat in
  let h := dt / inject_Z (Z.of_nat substeps) in
  let w := ensureHitStateSize st obstacles w in
  let w := ensureWobblePhaseSize st w in
  let wobbleOmega := TWO_PI * Q_max (wobbleFreqHz st) 0 in
  let jitterFactor := Qclamp (timingJitter st) 0 1 in
  for_loop 0 substeps
    (fun _ => substep st obstacles omega h wobbleOmega jitterFactor) w.

(** A run of the animation loop: one call per frame, oldest first. *)
Definition run (st : State) (obstacles : list Obstacle)
    (dts : list Q) (w : World) : World :=
  fold_left (fun w dt => stepSimulation st obstacles dt w) dts w.

(** *** Writers of obstacle angles *)



(** [handlePointerMove] of [renderObstacleAngleControls], for the
    pointer that grabbed the thumb: dragging the thumb of obstacle
    [index] to [clientX] on a track at [left] with width [width]. *)
Definition handlePointerMove (index : nat) (clientX left width : Q)
    (obstacles : list Obstacle) : list Obstacle :=
  if Qeq_bool width 0 then obstacles else
  let ratio := Qclamp ((clientX - left) / width) 0 1 in
  let rad := ratio * TWO_PI in
  match obstacles !! index with
  | Some obs =>
      <[index := {| angle := rad; sampleIndex := obstacle_sampleIndex obs;
                    volume := obstacle_volume obs;
                    enabled := obstacle_enabled obs |}]>
        obstacles
  | None => obstacles
  end.







End Core.

(** ** Definitions used in the statements *)

(** [clamp(x, 0, 1)] as the specification reads it, a number that is not
    one ([NaN]) counting as [0]. *)
Definition unit_clamp (x : num) : Q :=
  match x with
  | Fin a => Qclamp a 0 1
  | PInf => 1
  | NInf | NaN => 0
  end.

Definition accepted (o : Outcome) : bool :=
  match o with Accepted _ _ _ => true | Discarded => false end.

(** The hits that [registerCollision] accepts out of a sequence of raw
    strengths that reach it one after the other. *)
Fixpoint accepted_count (StringToNumber : string -> num)
    (performance_now : nat -> Q) (st : State) (obs : Obstacle)
    (raws : list num) (w : World) : nat :=
  match raws with
  | [] => 0
  | raw :: rest =>
      let '(w', out) :=
        registerCollision StringToNumber performance_now st raw obs 0 0 w in
      ((if accepted out then 1 else 0)
       + accepted_count StringToNumber performance_now st obs rest w')%nat
  end.

(** The angular velocity [(state.rpm / 60) * TWO_PI]. *)
Definition omega_of (st : State) : Q := rpm st / 60 * TWO_PI.

(** Blade [b]'s nominal angle at time [t] as the specification states it,
    with the mathematical residue. *)
Definition nominal_angle (st : State) (t : Q) (b : nat) : Q :=
  Qmod (omega_of st * t
        + TWO_PI * inject_Z (Z.of_nat b) / inject_Z (bladeCount st))
       TWO_PI.

(** The time after [k] sub-steps of size [h]. *)
Fixpoint advance (t h : Q) (k : nat) : Q :=
  match k with
  | O => t
  | S k => advance t h k + h
  end.

(** An angle kept in [[0, 2π)]. *)
Definition in_turn (a : Q) : Prop := 0 <= a < TWO_PI.

Definition same_pair (c1 c2 : Collision) : Prop :=
  c_blade c1 = c_blade c2 /\ c_obstacle c1 = c_obstacle c2.

(** In a log, most recent first: every entry is of a later revolution
    than the older entries of its pair. *)
Fixpoint rev_sorted (l : list Collision) : Prop :=
  match l with
  | [] => True
  | c :: older =>
      (forall c', c' ∈ older -> same_pair c' c -> (c_rev c' < c_rev c)%Z)
      /\ rev_sorted older
  end.

(** The recorded revolution of a pair is not before any logged
    collision of the pair. *)
Definition rev_bounded (w : World) : Prop :=
  forall c, c ∈ collisions w ->
    nle (Fin (inject_Z (c_rev c)))
        (read2 NInf (lastHitRev w) (c_blade c) (c_obstacle c)) = true.

(** Every row has length [m] and there are [n] of them. *)
Definition rows_sized {A : Type} (n m : nat) (rows : list (list A)) : Prop :=
  length rows = n /\ Forall (fun row => length row = m) rows.

(** Both per-pair tables have [n] rows of [m] entries. *)
Definition hit_sized (n m : nat) (w : World) : Prop :=
  rows_sized n m (wasInHitZone w) /\ rows_sized n m (lastHitRev w).

(** The condition under which the body of a pair pass calls
    [registerCollision]. *)
Definition fires (rev : Z) (inZone : bool) (b o : nat) (w : World) : bool :=
  negb (read2 false (wasInHitZone w) b o) && inZone
  && ngt (Fin (inject_Z rev)) (read2 NInf (lastHitRev w) b o).

(** The samples of one sub-step at time [t]: one per blade, in the order
    of the blade loop, each with the nominal angle of its blade. *)
Definition substep_samples (st : State) (t : Q) (l : list Sample) : Prop :=
  map s_blade (rev l) = seq 0 (Z.to_nat (bladeCount st)) /\
  Forall (fun s => s_time s = t /\
                   s_angle s == nominal_angle st t (s_blade s)) l.

(** What the obstacle loop leaves alone. *)
Definition kinematics_kept (w w' : World) : Prop :=
  simTime w' = simTime w /\ samples w' = samples w /\
  wobblePhasePerBlade w' = wobblePhasePerBlade w /\
  randomDraws w' = randomDraws w /\ audioContext w' = audioContext w.

(** What a run keeps true of the collision log. *)
Definition log_inv (st : State) (w : World) : Prop :=
  rev_bounded w /\ rev_sorted (collisions w) /\
  Forall (fun c => c_rev c = Qfloor (omega_of st * c_time c / TWO_PI))
         (collisions w).

(** The invariant of the loops of a sub-step at time [t]. *)
Definition substep_inv (st : State) (obstacles : list Obstacle) (t : Q)
    (w : World) : Prop :=
  log_inv st w /\
  hit_sized (Z.to_nat (bladeCount st)) (length obstacles) w /\
  simTime w = t.

(** What resizing the tables leaves alone. *)
Definition tables_only (w w' : World) : Prop :=
  kinematics_kept w w' /\ collisions w' = collisions w /\
  hitCount w' = hitCount w /\
  lastHitRateLogTime w' = lastHitRateLogTime w /\
  lastCollisionSimTime w' = lastCollisionSimTime w /\
  clockReads w' = clockReads w.

(** What a run keeps true. *)
Definition run_inv (st : State) (obstacles : list Obstacle)
    (w : World) : Prop :=
  log_inv st w /\
  (collisions w = [] \/
   hit_sized (Z.to_nat (bladeCount st)) (length obstacles) w).

(** ** A scenario to run

    The scenario of the specification: 200 rpm, three blades, one
    obstacle at angle 0, no wobble, threshold 0.12, frames of 1/60 s.
    With [axisJitter = 0] the wobble is zero whatever [Math.sin] and
    [Math.random] return. *)

Definition no_strings : string -> num := fun _ => NaN.
Definition still_sin : Q -> Q := fun _ => 0.
Definition mid_random : nat -> Q := fun _ => 1 # 2.
Definition frame_clock : nat -> Q := fun k => inject_Z (Z.of_nat k) * 16.

Definition scenario_state (threshold : Q) : State :=
  {| running := true; rpm := 200; bladeCount := 3; axisJitter := 0;
     timingJitter := 3 # 10; softHitLowCut := Fin (4 # 10);
     hitThreshold := Fin threshold; obstacleCount := 1;
     wobbleFreqHz := 3; tailMs := Fin 250; voiceMode := mono;
     impactDynamics := Fin (4 # 10) |}.

Definition scenario_obstacle : Obstacle :=
  {| angle := 0; sampleIndex := 0; volume := 1; enabled := true |}.

Definition scenario_obstacles : list Obstacle := [scenario_obstacle].

(** A slow fan with wobble: 30 rpm, [axisJitter = 0.1], full timing
    jitter, wobble frequency 0.  Blade 0 has phase 0, so its sine is
    taken at 0. *)
Definition wobbling_state : State :=
  {| running := true; rpm := 30; bladeCount := 3; axisJitter := 1 # 10;
     timingJitter := 1; softHitLowCut := Fin (4 # 10);
     hitThreshold := Fin (12 # 100); obstacleCount := 1;
     wobbleFreqHz := 0; tailMs := Fin 250; voiceMode := mono;
     impactDynamics := Fin (4 # 10) |}.


Definition scenario_run (threshold : Q) (dts : list Q) : World :=
  run no_strings still_sin mid_random frame_clock (scenario_state threshold)
    scenario_obstacles dts initial_world.

(** Closed comparisons of rationals and closed runs are settled by
    evaluation. *)
Ltac evaluate :=
  vm_compute;
  first [ reflexivity
        | discriminate
        | let H := fresh in intros H; discriminate H
        | let H := fresh in intros H; apply H; reflexivity ].

(** * Properties *)

(** ** The reduction of an angle difference *)



Lemma TWO_PI_pos : 0 < TWO_PI.
Proof. reflexivity. Qed.

Lemma Qltb_true a b : Qltb a b = true <-> a < b.
Proof. unfold Qltb. destruct (Qlt_le_dec a b); split; intros; try easy. lra. Qed.

Lemma Qltb_false a b : Qltb a b = false <-> b <= a.
Proof. unfold Qltb. destruct (Qlt_le_dec a b); split; intros; try easy. lra. Qed.

Lemma Qleb_true a b : Qleb a b = true <-> a <= b.
Proof. unfold Qleb. destruct (Qlt_le_dec b a); split; intros; try easy. lra. Qed.

Lemma Qleb_false a b : Qleb a b = false <-> b < a.
Proof. unfold Qleb. destruct (Qlt_le_dec b a); split; intros; try easy. lra. Qed.











(** ** The gate and the mappers *)

Lemma Qeq_bool_false (a b : Q) : Qeq_bool a b = false -> ~ a == b.
Proof. intros H E. apply Qeq_bool_iff in E. congruence. Qed.

Lemma Qclamp_range (a : Q) : 0 <= Qclamp a 0 1 <= 1.
Proof.
  unfold Qclamp, Q_min, Q_max.
  destruct (Qltb a 0) eqn:E1.
  - destruct (Qltb 1 0) eqn:E2; [apply Qltb_true in E2; lra|lra].
  - apply Qltb_false in E1. destruct (Qltb 1 a) eqn:E2; [lra|].
    apply Qltb_false in E2. lra.
Qed.

Lemma Qclamp_cases (a : Q) :
  (a <= 0 /\ Qclamp a 0 1 == 0) \/
  (0 <= a <= 1 /\ Qclamp a 0 1 = a) \/
  (1 <= a /\ Qclamp a 0 1 == 1).
Proof.
  unfold Qclamp, Q_min, Q_max.
  destruct (Qltb a 0) eqn:E1.
  - apply Qltb_true in E1. left. 
    destruct (Qltb 1 0) eqn:E2; [apply Qltb_true in E2; lra|]. split; lra.
  - apply Qltb_false in E1. destruct (Qltb 1 a) eqn:E2.
    + apply Qltb_true in E2. right; right. split; lra.
    + apply Qltb_false in E2. right; left. split; [lra|reflexivity].
Qed.

Lemma Qclamp_mono (a b : Q) : a <= b -> Qclamp a 0 1 <= Qclamp b 0 1.
Proof.
  intros H.
  destruct (Qclamp_cases a) as [[A1 A2]|[[A1 A2]|[A1 A2]]];
  destruct (Qclamp_cases b) as [[B1 B2]|[[B1 B2]|[B1 B2]]];
  rewrite ?A2, ?B2; lra.
Qed.

Lemma Qclamp_comp (a b : Q) : a == b -> Qclamp a 0 1 == Qclamp b 0 1.
Proof.
  intros H. apply Qle_antisym; apply Qclamp_mono; lra.
Qed.

Lemma unit_clamp_range (x : num) : 0 <= unit_clamp x <= 1.
Proof. destruct x; cbn; try lra. apply Qclamp_range. Qed.

(** [clamp(Number(x) || 0, 0, 1)] is a finite number of the unit
    interval, whatever the number [x]. *)
Lemma clamp_or0 (x : num) :
  exists q, clamp (or0 x) (Fin 0) (Fin 1) = Fin q /\ q == unit_clamp x.
Proof.
  destruct x as [a| | |]; cbn.
  - unfold or0, truthy. destruct (Qeq_bool a 0) eqn:E; cbn.
    + apply Qeq_bool_iff in E. exists 0. split; [reflexivity|].
      symmetry. rewrite (Qclamp_comp a 0 E). reflexivity.
    + unfold clamp, Math_max, Math_min, nlt. unfold Qclamp, Q_max, Q_min.
      destruct (Qltb a 0); [|destruct (Qltb 1 a)]; eexists; split; reflexivity.
  - exists 1. split; reflexivity.
  - exists 0. split; reflexivity.
  - exists 0. split; reflexivity.
Qed.

Section Mappers.
Variable StringToNumber : string -> num.


Lemma getSoftHitLowCutFactor_value (st : State) (v : value) :
  exists q,
    getSoftHitLowCutFactor StringToNumber st v = Fin q /\
    q == unit_clamp (softHitLowCut st)
         * (1 - unit_clamp (Number StringToNumber (default0 v))).
Proof.
  unfold getSoftHitLowCutFactor. cbn [Number].
  destruct (clamp_or0 (softHitLowCut st)) as (d & -> & Hd).
  destruct (clamp_or0 (Number StringToNumber (default0 v))) as (r & -> & Hr).
  cbn. eexists. split; [reflexivity|]. rewrite Hd, Hr. ring.
Qed.

Lemma unit_clamp_mono (x y : num) :
  nle x y = true -> unit_clamp x <= unit_clamp y.
Proof.
  destruct x as [a| | |], y as [b| | |]; cbn; try discriminate; intros H;
    try lra; try apply Qclamp_range.
  apply Qclamp_mono. now apply Qleb_true.
Qed.


(** C8.  [getSoftHitLowCutFactor] returns
    [bias * (1 - clamp(strength, 0, 1))] with
    [bias = clamp(softHitLowCut, 0, 1)]; it is 0 whenever the bias is 0,
    and it does not increase when the strength increases. *)
Theorem getSoftHitLowCutFactor_monotone (st : State) :
  let bias := unit_clamp (softHitLowCut st) in
  (forall v, exists q,
      getSoftHitLowCutFactor StringToNumber st v = Fin q /\
      q == bias * (1 - unit_clamp (Number StringToNumber (default0 v))) /\
      (forall s, v = VNum (Fin s) -> q == bias * (1 - Qclamp s 0 1)) /\
      (bias == 0 -> q == 0)) /\
  (forall x y q1 q2,
      nle x y = true ->
      getSoftHitLowCutFactor StringToNumber st (VNum x) = Fin q1 ->
      getSoftHitLowCutFactor StringToNumber st (VNum y) = Fin q2 ->
      q2 <= q1).
Proof.
  intros bias. 
  pose proof (unit_clamp_range (softHitLowCut st)) as Hb. fold bias in Hb.
  split.
  - intros v. destruct (getSoftHitLowCutFactor_value st v) as (q & Hq & E).
    fold bias in E. exists q. repeat split; try assumption.
    + intros s ->. rewrite E. reflexivity.
    + intros H0. rewrite E, H0. ring.
  - intros x y q1 q2 Hxy H1 H2.
    destruct (getSoftHitLowCutFactor_value st (VNum x)) as (p1 & Hp1 & E1).
    destruct (getSoftHitLowCutFactor_value st (VNum y)) as (p2 & Hp2 & E2).
    rewrite H1 in Hp1. rewrite H2 in Hp2.
    injection Hp1 as ->. injection Hp2 as ->.
    fold bias in E1, E2. cbn [default0 Number] in E1, E2.
    pose proof (unit_clamp_mono x y Hxy) as Hm.
    rewrite E1, E2. nra.
Qed.
End Mappers.

Lemma clamp_fin (a : Q) : clamp (Fin a) (Fin 0) (Fin 1) = Fin (Qclamp a 0 1).
Proof.
  unfold clamp, Math_max, Math_min, nlt, Qclamp, Q_max, Q_min.
  destruct (Qltb a 0); [|destruct (Qltb 1 a)]; reflexivity.
Qed.

Section Gate.
Variable StringToNumber : string -> num.
Variable performance_now : nat -> Q.

Lemma gate_threshold_fin (st : State) :
  exists t, gate_threshold StringToNumber st = Fin t /\
            t == unit_clamp (hitThreshold st).
Proof. unfold gate_threshold. cbn [Number]. apply clamp_or0. Qed.

Lemma gate_discards (st : State) (r : Q) obs b o w :
  r < 1 # 100 \/ r < unit_clamp (hitThreshold st) ->
  registerCollision StringToNumber performance_now st (Fin r) obs b o w
  = (w, Discarded).
Proof.
  intros H. unfold registerCollision.
  destruct (gate_threshold_fin st) as (t & -> & Ht). cbn [nlt].
  destruct (Qltb r (1 # 100)) eqn:E1; [reflexivity|].
  apply Qltb_false in E1.
  destruct (Qltb r t) eqn:E2; [reflexivity|].
  apply Qltb_false in E2. lra.
Qed.

Lemma gate_accepts (st : State) (r : Q) obs b o w :
  let thr := unit_clamp (hitThreshold st) in
  1 # 100 <= r -> thr <= r ->
  exists s i p w',
    registerCollision StringToNumber performance_now st (Fin r) obs b o w
    = (w', Accepted (Fin s) i p) /\
    0 <= s <= 1 /\
    (1 - thr <= 1 # 100000 -> s == 1) /\
    (1 # 100000 < 1 - thr -> s == Qclamp ((r - thr) / (1 - thr)) 0 1).
Proof.
  intros thr H1 H2. unfold registerCollision.
  destruct (gate_threshold_fin st) as (t & -> & Ht). fold thr in Ht.
  cbn [nlt nsub nneg nadd nle].
  destruct (Qltb r (1 # 100)) eqn:E1; [apply Qltb_true in E1; lra|].
  destruct (Qltb r t) eqn:E2; [apply Qltb_true in E2; lra|].
  destruct (Qleb (1 + - t) (1 # 100000)) eqn:E3.
  - apply Qleb_true in E3. rewrite clamp_fin.
    match goal with
    | |- context [Accepted ?s ?i _] =>
        destruct (negb (audioContext _) || negb (running st));
        [|destruct (Qltb 0 COLLISION_COOLDOWN && _)];
        (eexists _, i, _, _; split; [reflexivity|])
    end; (split; [apply Qclamp_range|]); split; intros; try lra;
      vm_compute; reflexivity.
  - apply Qleb_false in E3. unfold ndiv.
    destruct (Qeq_bool (1 + - t) 0) eqn:E4;
      [apply Qeq_bool_iff in E4; lra|].
    rewrite clamp_fin.
    match goal with
    | |- context [Accepted ?s ?i _] =>
        destruct (negb (audioContext _) || negb (running st));
        [|destruct (Qltb 0 COLLISION_COOLDOWN && _)];
        (eexists _, i, _, _; split; [reflexivity|])
    end; (split; [apply Qclamp_range|]); split; intros; try lra;
      apply Qclamp_comp; rewrite Ht; reflexivity.
Qed.
End Gate.

Section GateClaims.
Variable StringToNumber : string -> num.
Variable performance_now : nat -> Q.

(** C1, as amended.  A hit of raw strength [r] is discarded, the
    variables untouched, when [r < 0.01] or [r < threshold]; otherwise
    it is accepted with a strength [s] in [[0, 1]], which is 1 when
    [1 - threshold <= 1e-5] and
    [clamp((r - threshold) / (1 - threshold), 0, 1)] otherwise.  When
    [1 - threshold > 1e-5], [s = 0] exactly when [r = threshold]; and
    [s = 1] when [r = 1] and [threshold < 1]. *)
Theorem registerCollision_gate (st : State) (r : Q) (obs : Obstacle)
    (b o : nat) (w : World) :
  let thr := unit_clamp (hitThreshold st) in
  let res :=
    registerCollision StringToNumber performance_now st (Fin r) obs b o w in
  (r < 1 # 100 \/ r < thr -> res = (w, Discarded)) /\
  (1 # 100 <= r -> thr <= r ->
   exists s i p w',
     res = (w', Accepted (Fin s) i p) /\
     0 <= s <= 1 /\
     (1 - thr <= 1 # 100000 -> s == 1) /\
     (1 # 100000 < 1 - thr ->
      s == Qclamp ((r - thr) / (1 - thr)) 0 1 /\ (s == 0 <-> r == thr)) /\
     (r == 1 -> thr < 1 -> s == 1)).
Proof.
  intros thr res. split; [apply gate_discards|].
  intros H1 H2.
  destruct (gate_accepts StringToNumber performance_now st r obs b o w H1 H2)
    as (s & i & p & w' & Hres & Hs & Hone & Hnorm).
  fold thr in Hone, Hnorm.
  exists s, i, p, w'. split; [exact Hres|]. split; [exact Hs|].
  split; [exact Hone|].
  assert (Hx : forall d, 1 # 100000 < d -> d == 1 - thr ->
               0 <= (r - thr) / d /\
               ((r - thr) / d == 0 <-> r == thr) /\
               (r == 1 -> (r - thr) / d == 1)).
  { intros d Hd Ed. assert (Hdp : 0 < d) by lra.
    assert (Hm : (r - thr) / d * d == r - thr) by (field; lra).
    split; [apply Qle_shift_div_l; lra|]. split; [split|].
    - intros E. rewrite E in Hm. lra.
    - intros E. rewrite E. field. lra.
    - intros E. rewrite E, Ed. field. lra. }
  split.
  - intros Hd. specialize (Hnorm Hd). split; [exact Hnorm|].
    destruct (Hx (1 - thr) Hd ltac:(reflexivity)) as (X1 & X2 & _).
    rewrite Hnorm.
    destruct (Qclamp_cases ((r - thr) / (1 - thr)))
      as [[A1 A2]|[[A1 A2]|[A1 A2]]]; rewrite A2.
    + split; intros _; [apply X2; lra | reflexivity].
    + exact X2.
    + split; [intros E; lra|]. intros E. apply X2 in E. lra.
  - intros Er Hthr. destruct (Qlt_le_dec (1 # 100000) (1 - thr)) as [Hd|Hd].
    + rewrite (Hnorm Hd).
      destruct (Hx (1 - thr) Hd ltac:(reflexivity)) as (_ & _ & X3).
      rewrite (Qclamp_comp _ 1 (X3 Er)). reflexivity.
    + exact (Hone Hd).
Qed.

Lemma gate_accepted (st : State) (raw : num) obs b o w :
  accepted (snd (registerCollision StringToNumber performance_now
                   st raw obs b o w))
  = negb (nlt raw (Fin (1 # 100)))
    && negb (nlt raw (gate_threshold StringToNumber st)).
Proof.
  unfold registerCollision.
  destruct (nlt raw (Fin (1 # 100))); [reflexivity|].
  destruct (nlt raw (gate_threshold StringToNumber st)); [reflexivity|].
  destruct (negb (audioContext _) || negb (running st));
    [|destruct (Qltb 0 COLLISION_COOLDOWN && _)]; reflexivity.
Qed.

Lemma nlt_threshold_mono (raw : num) (t1 t2 : Q) :
  t1 <= t2 -> nlt raw (Fin t2) = false -> nlt raw (Fin t1) = false.
Proof.
  destruct raw as [r| | |]; cbn; intros H; try done.
  rewrite !Qltb_false. lra.
Qed.

(** C6.  For thresholds [0 <= t1 < t2 <= 1] and one sequence of raw
    strengths reaching the gate, the hits accepted at [t2] are at most
    as many as those accepted at [t1]. *)
Theorem gate_monotone (st1 st2 : State) (obs : Obstacle)
    (raws : list num) (w1 w2 : World) (t1 t2 : Q) :
  hitThreshold st1 = Fin t1 -> hitThreshold st2 = Fin t2 ->
  0 <= t1 -> t1 < t2 -> t2 <= 1 ->
  (accepted_count StringToNumber performance_now st2 obs raws w2
   <= accepted_count StringToNumber performance_now st1 obs raws w1)%nat.
Proof.
  intros E1 E2 H0 Hlt H1.
  destruct (gate_threshold_fin StringToNumber st1) as (u1 & G1 & U1).
  destruct (gate_threshold_fin StringToNumber st2) as (u2 & G2 & U2).
  rewrite E1 in U1. rewrite E2 in U2. cbn [unit_clamp] in U1, U2.
  assert (Hu : u1 <= u2).
  { rewrite U1, U2. apply Qclamp_mono. lra. }
  revert w1 w2. induction raws as [|raw rest IH]; intros w1 w2; [done|].
  cbn [accepted_count].
  pose proof (gate_accepted st1 raw obs 0%nat 0%nat w1) as A1.
  pose proof (gate_accepted st2 raw obs 0%nat 0%nat w2) as A2.
  destruct (registerCollision _ _ st1 raw obs 0 0 w1) as [w1' o1].
  destruct (registerCollision _ _ st2 raw obs 0 0 w2) as [w2' o2].
  cbn [snd] in A1, A2. specialize (IH w1' w2').
  rewrite G1 in A1. rewrite G2 in A2.
  destruct (accepted o2) eqn:B2; [|destruct (accepted o1); lia].
  symmetry in A2. apply andb_true_iff in A2 as [A2a A2b].
  apply negb_true_iff in A2b.
  rewrite (nlt_threshold_mono raw u1 u2 Hu A2b) in A1.
  rewrite A2a in A1. cbn in A1. rewrite A1. lia.
Qed.
End GateClaims.

(** ** Arrays and loops *)

Section Arrays.
Context {A : Type}.
Implicit Types (l : list A) (rows : list (list A)).

Lemma array_set_lookup_eq (hole : A) i v l :
  array_set hole i v l !! i = Some v.
Proof.
  unfold array_set. destruct (decide (i < length l)%nat) as [H|H].
  - by apply list_lookup_insert_eq.
  - rewrite lookup_app_r by lia. rewrite lookup_app_r;
      rewrite length_replicate; [|lia].
    by replace (i - length l - (i - length l))%nat with 0%nat by lia.
Qed.

Lemma array_set_lookup_ne (hole : A) i j v l :
  i <> j -> default hole (array_set hole i v l !! j) = default hole (l !! j).
Proof.
  intros Hne. unfold array_set.
  destruct (decide (i < length l)%nat) as [H|H].
  - by rewrite list_lookup_insert_ne.
  - destruct (decide (j < length l)%nat) as [Hj|Hj].
    + by rewrite lookup_app_l.
    + rewrite (lookup_ge_None_2 l j) by lia.
      rewrite lookup_app_r by lia.
      destruct (decide (j - length l < i - length l)%nat) as [Hk|Hk].
      * rewrite lookup_app_l by (rewrite length_replicate; lia).
        rewrite lookup_replicate_2 by lia. done.
      * rewrite lookup_app_r by (rewrite length_replicate; lia).
        rewrite length_replicate.
        destruct (j - length l - (i - length l))%nat as [|k] eqn:E; [lia|].
        done.
Qed.

Lemma array_set_length_in (hole : A) i v l :
  (i < length l)%nat -> length (array_set hole i v l) = length l.
Proof.
  intros H. unfold array_set. rewrite decide_True by done.
  apply length_insert.
Qed.

Lemma array_set_push (hole : A) v l :
  array_set hole (length l) v l = l ++ [v].
Proof.
  unfold array_set. rewrite decide_False by lia.
  by rewrite Nat.sub_diag.
Qed.

End Arrays.

Section Rows.
Context {A : Type}.
Implicit Types (l : list A) (rows : list (list A)).

Lemma read2_ensure_row (d : A) m b rows b' o' :
  read2 d (ensure_row d m b rows) b' o' = read2 d rows b' o'.
Proof.
  unfold ensure_row. destruct (rows !! b) as [row|] eqn:E; [done|].
  unfold read2. destruct (decide (b = b')) as [<-|Hne].
  - rewrite array_set_lookup_eq, E.
    destruct (replicate m d !! o') as [x|] eqn:E'; [|done].
    by apply lookup_replicate_1 in E' as [-> _].
  - pose proof (array_set_lookup_ne [] b b' (replicate m d) rows Hne) as H.
    destruct (array_set [] b (replicate m d) rows !! b') as [r1|],
             (rows !! b') as [r2|]; cbn in H; subst; done.
Qed.

Lemma ensure_row_present (d : A) m b rows :
  is_Some (ensure_row d m b rows !! b).
Proof.
  unfold ensure_row. destruct (rows !! b) as [row|] eqn:E; [by eexists|].
  rewrite array_set_lookup_eq. by eexists.
Qed.

Lemma ensure_row_id (d : A) m b rows :
  (b < length rows)%nat -> ensure_row d m b rows = rows.
Proof.
  intros H. unfold ensure_row.
  by destruct (lookup_lt_is_Some_2 rows b H) as [row ->].
Qed.

Lemma read2_write2_eq (d : A) b o v rows :
  is_Some (rows !! b) -> read2 d (write2 d b o v rows) b o = v.
Proof.
  intros [row E]. unfold write2, read2. rewrite E.
  rewrite list_lookup_insert_eq by (by eapply lookup_lt_Some).
  by rewrite array_set_lookup_eq.
Qed.

Lemma read2_write2_ne (d : A) b o v rows b' o' :
  (b', o') <> (b, o) ->
  read2 d (write2 d b o v rows) b' o' = read2 d rows b' o'.
Proof.
  intros Hne. unfold write2, read2.
  destruct (rows !! b) as [row|] eqn:E; [|done].
  destruct (decide (b = b')) as [<-|Hb].
  - rewrite list_lookup_insert_eq by (by eapply lookup_lt_Some).
    rewrite E. apply array_set_lookup_ne. congruence.
  - by rewrite list_lookup_insert_ne.
Qed.

Lemma write2_sized (d : A) n m b o v rows :
  (o < m)%nat -> rows_sized n m rows -> rows_sized n m (write2 d b o v rows).
Proof.
  intros Ho [Hn Hm]. unfold write2.
  destruct (rows !! b) as [row|] eqn:E; [|done].
  split; [by rewrite length_insert|].
  apply Forall_insert; [done|].
  rewrite array_set_length_in; rewrite (Forall_lookup_1 _ _ _ _ Hm E); done.
Qed.

Lemma rows_sized_row_sized n m rows b :
  rows_sized n m rows -> (b < n)%nat -> row_sized rows m b = true.
Proof.
  intros [Hn Hm] Hb. unfold row_sized.
  destruct (lookup_lt_is_Some_2 rows b ltac:(lia)) as [row E]. rewrite E.
  apply Nat.eqb_eq. exact (Forall_lookup_1 _ _ _ _ Hm E).
Qed.
End Rows.

(** Loops. *)
Lemma for_loop_ind {S : Type} (P : S -> Prop) (body : nat -> S -> S) :
  forall count start s,
    (forall i s, (start <= i < start + count)%nat -> P s -> P (body i s)) ->
    P s -> P (for_loop start count body s).
Proof.
  induction count as [|k IH]; intros start s Hbody Hs; [done|].
  cbn [for_loop]. apply IH.
  - intros i s' Hi. apply Hbody. lia.
  - apply Hbody; [lia|done].
Qed.

Lemma for_loop_S {S : Type} (body : nat -> S -> S) count start s :
  for_loop start (Datatypes.S count) body s
  = body (start + count)%nat (for_loop start count body s).
Proof.
  revert start s. induction count as [|k IH]; intros start s.
  - cbn. by rewrite Nat.add_0_r.
  - cbn [for_loop] in *. rewrite IH. f_equal. lia.
Qed.

(** ** One pair pass *)

Section Frames.
Variable StringToNumber : string -> num.
Variable sin : Q -> Q.
Variable random : nat -> Q.
Variable performance_now : nat -> Q.

(** What the gate leaves alone. *)
Lemma registerCollision_frame st raw obs b o w :
  let w' := fst (registerCollision StringToNumber performance_now
                   st raw obs b o w) in
  wasInHitZone w' = wasInHitZone w /\
  lastHitRev w' = lastHitRev w /\
  wobblePhasePerBlade w' = wobblePhasePerBlade w /\
  simTime w' = simTime w /\
  samples w' = samples w /\
  collisions w' = collisions w /\
  randomDraws w' = randomDraws w /\
  audioContext w' = audioContext w.
Proof.
  unfold registerCollision.
  destruct (nlt raw (Fin (1 # 100))); [done|].
  destruct (nlt raw (gate_threshold StringToNumber st)); [done|].
  destruct (Qltb 1000 _);
    (destruct (negb (audioContext _) || negb (running st));
     [|destruct (Qltb 0 COLLISION_COOLDOWN && _)]); done.
Qed.

Lemma pair_pass_spec st m rev b angle wobble o obs w :
  let raw := raw_strength (angle + wobble) (obstacle_angle obs) in
  let inZone := Qltb 0 raw in
  let fire := fires rev inZone b o w in
  let w' := pair_pass StringToNumber performance_now st m rev b
              angle wobble o obs w in
  (simTime w' = simTime w /\ samples w' = samples w /\
   wobblePhasePerBlade w' = wobblePhasePerBlade w /\
   randomDraws w' = randomDraws w /\ audioContext w' = audioContext w) /\
  (forall b' o',
      read2 false (wasInHitZone w') b' o'
      = if decide ((b', o') = (b, o)) then inZone
        else read2 false (wasInHitZone w) b' o') /\
  (forall b' o',
      read2 NInf (lastHitRev w') b' o'
      = if fire && bool_decide ((b', o') = (b, o))
        then Fin (inject_Z rev)
        else read2 NInf (lastHitRev w) b' o') /\
  (exists w1,
      collisions w'
      = (if fire
         then [ {| c_time := simTime w; c_rev := rev; c_blade := b;
                   c_obstacle := o; c_raw := raw;
                   c_outcome :=
                     snd (registerCollision StringToNumber performance_now
                            st (Fin raw) obs b o w1) |} ]
         else []) ++ collisions w) /\
  (forall n, hit_sized n m w -> (b < n)%nat -> (o < m)%nat ->
             hit_sized n m w').
Proof.
  intros raw inZone fire w'.
  assert (Hzone : forall rows b' o',
    read2 false
      (write2 false b o inZone (ensure_row false m b rows)) b' o'
    = if decide ((b', o') = (b, o)) then inZone else read2 false rows b' o').
  { intros rows b' o'. destruct (decide ((b', o') = (b, o))) as [E|E].
    - injection E as -> ->. apply read2_write2_eq, ensure_row_present.
    - rewrite read2_write2_ne by done. apply read2_ensure_row. }
  assert (Hsz : forall n rows, rows_sized n m rows -> (b < n)%nat ->
    (o < m)%nat ->
    rows_sized n m (write2 false b o inZone (ensure_row false m b rows))).
  { intros n rows Hr Hb Ho. rewrite ensure_row_id by (destruct Hr; lia).
    by apply write2_sized. }
  subst w'. unfold pair_pass. fold raw. fold inZone.
  unfold fires in fire.
  destruct (negb (read2 false (wasInHitZone w) b o) && inZone) eqn:Hedge;
    cbn [andb] in fire; cycle 1.
  { subst fire. cbn.
    split_and!; [done|done|done|done|done|apply Hzone|done|by exists w|].
    intros n [H1 H2] Hb Ho. split; [by apply Hsz|done]. }
  cbn [lastHitRev set_lastHitRev].
  rewrite read2_ensure_row. fold fire.
  destruct fire eqn:Hfire; cycle 1.
  { cbn.
    split_and!; [done|done|done|done|done|apply Hzone| |by exists w|].
    - intros b' o'. apply read2_ensure_row.
    - intros n [H1 H2] Hb Ho. split; [by apply Hsz|]. cbn.
      rewrite ensure_row_id; [done|destruct H2; lia]. }
  set (w1 := set_lastHitRev _ w).
  pose proof (registerCollision_frame st (Fin raw) obs b o w1) as F.
  destruct (registerCollision _ _ st (Fin raw) obs b o w1) as [w2 out] eqn:E.
  cbn [fst] in F. destruct F as (F1 & F2 & F3 & F4 & F5 & F6 & F7 & F8).
  cbn. rewrite F1, F2, F3, F4, F5, F6, F7, F8. cbn.
  split_and!; [done|done|done|done|done|apply Hzone| | |].
  - intros b' o'. destruct (bool_decide ((b', o') = (b, o))) eqn:Hd.
    + apply bool_decide_eq_true in Hd. injection Hd as -> ->.
      apply read2_write2_eq, ensure_row_present.
    + apply bool_decide_eq_false in Hd. rewrite read2_write2_ne by done.
      apply read2_ensure_row.
  - refine (ex_intro _ w1 _). rewrite E. reflexivity.
  - intros n [H1 H2] Hb Ho. split; [by apply Hsz|].
    cbn. rewrite ensure_row_id by (destruct H2; lia).
    by apply write2_sized.
Qed.
End Frames.

(** ** The collision log *)

(** The order of numbers on revolution indices. *)
Lemma nle_rev_refl (a : Z) : nle (Fin (inject_Z a)) (Fin (inject_Z a)) = true.
Proof. cbn. apply Qleb_true. lra. Qed.

Lemma nle_rev_lt (a b : Z) :
  (a < b)%Z -> nle (Fin (inject_Z a)) (Fin (inject_Z b)) = true.
Proof. intros H. cbn. apply Qleb_true. rewrite <- Zle_Qle. lia. Qed.

Lemma nle_nlt_rev (a b : Z) (y : num) :
  nle (Fin (inject_Z a)) y = true -> nlt y (Fin (inject_Z b)) = true ->
  (a < b)%Z.
Proof.
  destruct y as [q| | |]; cbn; try discriminate.
  rewrite Qleb_true, Qltb_true. intros H1 H2.
  rewrite Zlt_Qlt. lra.
Qed.

Lemma rev_sorted_distinct (l : list Collision) :
  rev_sorted l ->
  forall i j c1 c2, (i < j)%nat -> l !! i = Some c1 -> l !! j = Some c2 ->
    same_pair c2 c1 -> (c_rev c2 < c_rev c1)%Z.
Proof.
  induction l as [|c l IH]; intros Hs i j c1 c2 Hij H1 H2 Hp; [done|].
  destruct Hs as [Hc Hs]. destruct j as [|j]; [lia|]. cbn in H2.
  destruct i as [|i]; cbn in H1.
  - injection H1 as ->. apply Hc; [|done]. by eapply list_elem_of_lookup_2.
  - eapply (IH Hs i j); [lia|done..].
Qed.

Section Invariant.
Variable StringToNumber : string -> num.
Variable sin : Q -> Q.
Variable random : nat -> Q.
Variable performance_now : nat -> Q.
Variable st : State.

Lemma pair_pass_log_inv m rev b angle wobble o obs w :
  rev = Qfloor (omega_of st * simTime w / TWO_PI) ->
  log_inv st w ->
  log_inv st (pair_pass StringToNumber performance_now st m rev b
             angle wobble o obs w).
Proof.
  intros Hrev (Hb & Hs & Ht).
  destruct (pair_pass_spec StringToNumber performance_now st m rev b
              angle wobble o obs w) as (_ & _ & Hlast & [w1 Hcol] & _).
  cbv zeta in Hlast, Hcol.
  set (w' := pair_pass _ _ _ _ _ _ _ _ _ _ _) in *.
  set (inZone := Qltb 0 _) in *.
  destruct (fires rev inZone b o w) eqn:Hfire; cbn [app] in Hcol.
  - assert (Hlt : nlt (read2 NInf (lastHitRev w) b o)
                      (Fin (inject_Z rev)) = true).
    { unfold fires in Hfire. apply andb_true_iff in Hfire as [_ H]. exact H. }
    assert (Hold : forall c', c' ∈ collisions w ->
              c_blade c' = b -> c_obstacle c' = o -> (c_rev c' < rev)%Z).
    { intros c' Hin <- <-. eapply nle_nlt_rev; [apply Hb, Hin|exact Hlt]. }
    unfold log_inv. rewrite Hcol. split_and!.
    + intros c Hin. rewrite Hlast. cbn [andb]. rewrite Hcol in Hin.
      apply elem_of_cons in Hin as [->|Hin]; cbn.
      * rewrite bool_decide_eq_true_2 by done. apply nle_rev_refl.
      * destruct (bool_decide ((c_blade c, c_obstacle c) = (b, o))) eqn:Hd.
        -- apply bool_decide_eq_true in Hd. injection Hd as E1 E2.
           apply nle_rev_lt. by apply Hold.
        -- by apply Hb.
    + cbn [rev_sorted]. split; [|done].
      intros c' Hin [E1 E2]. cbn in E1, E2 |- *. by apply Hold.
    + apply Forall_cons. split; [exact Hrev|done].
  - unfold log_inv. rewrite Hcol. cbn [app]. split_and!; [|done|done].
    intros c Hin. rewrite Hlast. cbn [andb]. rewrite Hcol in Hin.
    by apply Hb.
Qed.

Lemma pair_pass_simTime m rev b angle wobble o obs w :
  simTime (pair_pass StringToNumber performance_now st m rev b
             angle wobble o obs w) = simTime w.
Proof. apply pair_pass_spec. Qed.

(** The obstacle loop from index [o] on. *)
Lemma obstacle_loop_inv (P : World -> Prop) m rev b angle wobble :
  forall rest o w,
    (forall o' obs w, (o <= o' < o + length rest)%nat -> P w ->
       P (pair_pass StringToNumber performance_now st m rev b
            angle wobble o' obs w)) ->
    P w ->
    P (obstacle_loop StringToNumber performance_now st m rev b
         angle wobble o rest w).
Proof.
  induction rest as [|obs rest IH]; intros o w Hbody Hw; [done|].
  cbn [obstacle_loop]. apply IH.
  - intros o' obs' w' Ho'. apply Hbody. cbn [length]. lia.
  - apply Hbody; [cbn [length]; lia|done].
Qed.
End Invariant.

(** ** The loops of a sub-step *)

(** The remainder and the residue. *)
Lemma js_rem_nonneg (a m : Q) : 0 <= a -> 0 < m -> js_rem a m = Qmod a m.
Proof.
  intros Ha Hm. unfold js_rem, Qmod, Qtrunc.
  destruct (Qlt_le_dec (a / m) 0) as [H|H]; [|reflexivity].
  assert (0 <= a / m) by (apply Qle_shift_div_l; lra). lra.
Qed.

Lemma Qmod_range (a m : Q) : 0 < m -> 0 <= Qmod a m < m.
Proof.
  intros Hm. unfold Qmod.
  pose proof (Qfloor_le (a / m)) as H1. pose proof (Qlt_floor (a / m)) as H2.
  rewrite inject_Z_plus in H2. change (inject_Z 1) with 1 in H2.
  assert (E : a / m * m == a) by (field; lra).
  set (k := inject_Z (Qfloor (a / m))) in *.
  assert (k * m <= a / m * m) by (apply Qmult_le_compat_r; lra).
  assert (a / m * m < (k + 1) * m) by (apply Qmult_lt_compat_r; lra).
  split; lra.
Qed.


Lemma js_rem_sign (a m : Q) : 0 < m -> 0 <= a -> 0 <= js_rem a m.
Proof. intros Hm Ha. rewrite js_rem_nonneg by done. by apply Qmod_range. Qed.

Section Loops.
Variable StringToNumber : string -> num.
Variable sin : Q -> Q.
Variable random : nat -> Q.
Variable performance_now : nat -> Q.
Variable st : State.
Variable obstacles : list Obstacle.

Let n := Z.to_nat (bladeCount st).
Let m := length obstacles.

Lemma pair_pass_substep_inv rev b angle wobble o obs w :
  (b < n)%nat -> (o < m)%nat ->
  rev = Qfloor (omega_of st * simTime w / TWO_PI) ->
  substep_inv st obstacles (simTime w) w ->
  substep_inv st obstacles (simTime w)
    (pair_pass StringToNumber performance_now st m rev b
       angle wobble o obs w).
Proof.
  intros Hb Ho Hrev (Hl & Hs & _). split_and!.
  - by apply pair_pass_log_inv.
  - by apply pair_pass_spec.
  - apply pair_pass_spec.
Qed.

Lemma obstacle_loop_kept m' rev b angle wobble rest o w :
  kinematics_kept w
    (obstacle_loop StringToNumber performance_now st m' rev b
       angle wobble o rest w).
Proof.
  apply (obstacle_loop_inv _ _ st (kinematics_kept w)); [|done].
  intros o' obs w' _ (K1 & K2 & K3 & K4 & K5).
  destruct (pair_pass_spec StringToNumber performance_now st m' rev b
              angle wobble o' obs w') as ((P1 & P2 & P3 & P4 & P5) & _).
  unfold kinematics_kept. by rewrite P1, P2, P3, P4, P5.
Qed.

Lemma blade_pass_substep_inv baseAngle rev wobbleOmega jitterFactor b w :
  (b < n)%nat ->
  rev = Qfloor (omega_of st * simTime w / TWO_PI) ->
  substep_inv st obstacles (simTime w) w ->
  substep_inv st obstacles (simTime w)
    (blade_pass StringToNumber sin random performance_now st obstacles
       baseAngle rev wobbleOmega jitterFactor b w).
Proof.
  intros Hb Hrev Hw. unfold blade_pass.
  set (w1 := log_sample _ w).
  assert (Ht : simTime w1 = simTime w) by done.
  rewrite <- Ht.
  apply (obstacle_loop_inv _ _ st (substep_inv st obstacles (simTime w1))).
  - intros o obs w' Ho (Hl & Hs & Ht'). rewrite <- Ht'.
    apply pair_pass_substep_inv.
    + done.
    + unfold m. lia.
    + by rewrite Ht', Ht.
    + by rewrite Ht'.
  - destruct Hw as ((H1 & H2 & H3) & H4 & H5). by split_and!.
Qed.

Lemma blade_pass_samples baseAngle rev wobbleOmega jitterFactor b w :
  let w' := blade_pass StringToNumber sin random performance_now st
              obstacles baseAngle rev wobbleOmega jitterFactor b w in
  simTime w' = simTime w /\
  wobblePhasePerBlade w' = wobblePhasePerBlade w /\
  exists s, samples w' = s :: samples w /\
            s_time s = simTime w /\ s_blade s = b /\
            s_angle s = blade_angle st baseAngle b /\
            s_wobble s = blade_wobble sin st wobbleOmega jitterFactor w b
                           (random (randomDraws w)).
Proof.
  unfold blade_pass.
  set (w1 := log_sample _ w).
  destruct (obstacle_loop_kept (length obstacles) rev b
              (blade_angle st baseAngle b)
              (blade_wobble sin st wobbleOmega jitterFactor w b
                 (random (randomDraws w))) obstacles 0%nat w1)
    as (K1 & K2 & K3 & _).
  cbn zeta. rewrite K1, K2, K3. split_and!; [done|done|].
  eexists. split; [reflexivity|]. done.
Qed.

(** The blade loop of a sub-step. *)
Lemma blade_loop_samples baseAngle revIndex wobbleOmega jitterFactor w :
  forall count,
    let w' := for_loop 0 count
                (blade_pass StringToNumber sin random performance_now st
                   obstacles baseAngle revIndex wobbleOmega jitterFactor) w in
    simTime w' = simTime w /\
    wobblePhasePerBlade w' = wobblePhasePerBlade w /\
    exists new, samples w' = new ++ samples w /\
                map s_blade (rev new) = seq 0 count /\
                Forall (fun s => s_time s = simTime w /\
                                 s_angle s
                                 = blade_angle st baseAngle (s_blade s) /\
                                 (s_blade s < count)%nat) new.
Proof.
  induction count as [|k IH]; cbn zeta.
  - cbn. split_and!; [done|done|]. by exists [].
  - rewrite for_loop_S. cbn zeta in IH.
    set (wk := for_loop 0 k _ w) in *.
    destruct IH as (T & Ph & new & Hnew & Hmap & Hall).
    destruct (blade_pass_samples baseAngle revIndex wobbleOmega jitterFactor
                (0 + k) wk) as (T' & Ph' & s & Hs & S1 & S2 & S3 & _).
    cbn zeta in T', Ph', Hs. rewrite T', Ph', Hs, T, Ph, Hnew.
    split_and!; [done|done|]. exists (s :: new). split_and!.
    + done.
    + cbn [rev]. rewrite map_app, Hmap, seq_S. cbn. by rewrite S2.
    + apply Forall_cons. split.
      * rewrite S1, S2, S3, T. split_and!; [done|done|lia].
      * eapply Forall_impl; [exact Hall|]. cbn. intros x (?&?&?).
        split_and!; [done|done|lia].
Qed.

Lemma blade_loop_substep_inv baseAngle rev wobbleOmega jitterFactor w :
  rev = Qfloor (omega_of st * simTime w / TWO_PI) ->
  substep_inv st obstacles (simTime w) w ->
  substep_inv st obstacles (simTime w)
    (for_loop 0 n
       (blade_pass StringToNumber sin random performance_now st
          obstacles baseAngle rev wobbleOmega jitterFactor) w).
Proof.
  intros Hrev Hw.
  apply (for_loop_ind (substep_inv st obstacles (simTime w))); [|done].
  intros b w' Hb Hw'. assert (Ht : simTime w' = simTime w) by apply Hw'.
  rewrite <- Ht. apply blade_pass_substep_inv; [lia|by rewrite Ht|].
  by rewrite Ht.
Qed.
End Loops.

(** ** A step and a run *)

Lemma replicate_snoc {A : Type} (k : nat) (x : A) :
  replicate k x ++ [x] = replicate (S k) x.
Proof. induction k as [|k IH]; [done|]. cbn. by rewrite IH. Qed.

Lemma array_set_replicate {A : Type} (hole : A) (k : nat) (x : A) :
  array_set hole k x (replicate k x) = replicate (S k) x.
Proof.
  unfold array_set. rewrite length_replicate.
  rewrite decide_False by lia. rewrite Nat.sub_diag. apply replicate_snoc.
Qed.

Section Step.
Variable StringToNumber : string -> num.
Variable sin : Q -> Q.
Variable random : nat -> Q.
Variable performance_now : nat -> Q.
Variable st : State.
Variable obstacles : list Obstacle.

Let n := Z.to_nat (bladeCount st).
Let m := length obstacles.

Lemma resetHitStates_spec w :
  let w' := resetHitStates st obstacles w in
  wasInHitZone w' = replicate n (replicate m false) /\
  lastHitRev w' = replicate n (replicate m NInf) /\
  tables_only w w'.
Proof.
  unfold resetHitStates. fold n m.
  induction n as [|k IH].
  - cbn. by split_and!.
  - rewrite for_loop_S. cbn zeta in IH |- *.
    set (wk := for_loop 0 k _ _) in *.
    destruct IH as (H1 & H2 & (K1&K2&K3&K4&K5) & T2 & T3 & T4 & T5 & T6).
    cbn. rewrite H1, H2, !array_set_replicate.
    by split_and!.
Qed.

Lemma replicate_rows_sized {A : Type} (d : A) :
  rows_sized n m (replicate n (replicate m d)).
Proof.
  split; [apply length_replicate|].
  apply Forall_replicate, length_replicate.
Qed.

Lemma resetHitStates_sized w : hit_sized n m (resetHitStates st obstacles w).
Proof.
  destruct (resetHitStates_spec w) as (H1 & H2 & _). cbn zeta in H1, H2.
  split; [rewrite H1|rewrite H2]; apply replicate_rows_sized.
Qed.

Lemma rows_checked {A : Type} (rows : list (list A)) :
  Z.of_nat (length rows) = bladeCount st ->
  forallb (fun b => row_sized rows m b) (seq 0 n) = true ->
  rows_sized n m rows.
Proof.
  intros Hlen Hall. assert (Hn : length rows = n) by (unfold n; lia).
  split; [done|]. apply Forall_lookup_2. intros b row Hb.
  rewrite forallb_forall in Hall.
  specialize (Hall b). unfold row_sized in Hall. rewrite Hb in Hall.
  apply Nat.eqb_eq, Hall, in_seq.
  apply lookup_lt_Some in Hb. lia.
Qed.

Lemma ensureHitStateSize_spec w :
  let w' := ensureHitStateSize st obstacles w in
  hit_sized n m w' /\ tables_only w w' /\
  (hit_sized n m w ->
   wasInHitZone w' = wasInHitZone w /\ lastHitRev w' = lastHitRev w).
Proof.
  cbn zeta. unfold ensureHitStateSize. fold m n.
  destruct (resetHitStates_spec w) as (R1 & R2 & Hreset).
  cbn zeta in R1, R2.
  pose proof (resetHitStates_sized w) as Hsized.
  assert (Hnil : hit_sized n m w -> n = 0%nat ->
            wasInHitZone (resetHitStates st obstacles w) = wasInHitZone w /\
            lastHitRev (resetHitStates st obstacles w) = lastHitRev w).
  { intros [[H1 _] [H2 _]] H0. rewrite R1, R2, H0. rewrite H0 in H1, H2.
    apply nil_length_inv in H1, H2. by rewrite H1, H2. }
  assert (Hid : tables_only w w) by (by repeat split).
  destruct (Z.of_nat (length (wasInHitZone w)) =? bladeCount st)%Z eqn:E1;
    cbn [negb orb]; cycle 1.
  { split_and!; [done|done|]. intros Hw. apply Hnil; [done|].
    destruct Hw as [[H1 _] _]. apply Z.eqb_neq in E1. unfold n in *. lia. }
  destruct (Z.of_nat (length (lastHitRev w)) =? bladeCount st)%Z eqn:E2;
    cbn [negb orb]; cycle 1.
  { split_and!; [done|done|]. intros Hw. apply Hnil; [done|].
    destruct Hw as [_ [H1 _]]. apply Z.eqb_neq in E2. unfold n in *. lia. }
  apply Z.eqb_eq in E1, E2.
  destruct (forallb _ (seq 0 n)) eqn:E3.
  - split_and!; [|done|done].
    rewrite forallb_forall in E3.
    split; apply rows_checked; try done; apply forallb_forall;
      intros b Hb; specialize (E3 b Hb); apply andb_true_iff in E3;
      apply E3.
  - split_and!; [done|done|]. intros [H1 H2]. exfalso.
    apply not_true_iff_false in E3. apply E3, forallb_forall.
    intros b Hb. apply in_seq in Hb.
    rewrite (rows_sized_row_sized n m _ b H1) by lia.
    by rewrite (rows_sized_row_sized n m _ b H2) by lia.
Qed.

Lemma resetWobblePhases_kept w :
  let w' := resetWobblePhases st w in
  wasInHitZone w' = wasInHitZone w /\ lastHitRev w' = lastHitRev w /\
  simTime w' = simTime w /\ samples w' = samples w /\
  collisions w' = collisions w.
Proof.
  cbn zeta. unfold resetWobblePhases.
  destruct (bladeCount st <=? 0)%Z; [done|].
  apply (for_loop_ind (fun w' =>
    wasInHitZone w' = wasInHitZone w /\ lastHitRev w' = lastHitRev w /\
    simTime w' = simTime w /\ samples w' = samples w /\
    collisions w' = collisions w)); [|done].
  intros b w' _ H. exact H.
Qed.

Lemma ensureWobblePhaseSize_kept w :
  let w' := ensureWobblePhaseSize st w in
  wasInHitZone w' = wasInHitZone w /\ lastHitRev w' = lastHitRev w /\
  simTime w' = simTime w /\ samples w' = samples w /\
  collisions w' = collisions w.
Proof.
  cbn zeta. unfold ensureWobblePhaseSize.
  destruct (negb _); [apply resetWobblePhases_kept|done].
Qed.

(** One sub-step: time and samples. *)
Lemma substep_kinematics h wobbleOmega jitterFactor w :
  let w' := substep StringToNumber sin random performance_now st
              obstacles (omega_of st) h wobbleOmega jitterFactor w in
  simTime w' = simTime w + h /\
  exists new,
    samples w' = new ++ samples w /\
    map s_blade (rev new) = seq 0 n /\
    Forall (fun s => s_time s = simTime w + h /\
                     s_angle s
                     = blade_angle st (omega_of st * (simTime w + h))
                         (s_blade s) /\
                     (s_blade s < n)%nat) new.
Proof.
  unfold substep. fold n.
  set (w1 := set_simTime (simTime w + h) w). cbn zeta.
  destruct (blade_loop_samples StringToNumber sin random
              performance_now st obstacles (omega_of st * simTime w1)
              (Qfloor (omega_of st * simTime w1 / TWO_PI))
              wobbleOmega jitterFactor w1 n) as (T & _ & new & S1 & S2 & S3).
  split; [done|]. by exists new.
Qed.

(** One sub-step: the invariant. *)
Lemma substep_spec h wobbleOmega jitterFactor w :
  log_inv st w -> hit_sized n m w ->
  let w' := substep StringToNumber sin random performance_now st
              obstacles (omega_of st) h wobbleOmega jitterFactor w in
  log_inv st w' /\ hit_sized n m w' /\ simTime w' = simTime w + h /\
  exists new,
    samples w' = new ++ samples w /\
    map s_blade (rev new) = seq 0 n /\
    Forall (fun s => s_time s = simTime w + h /\
                     s_angle s
                     = blade_angle st (omega_of st * (simTime w + h))
                         (s_blade s) /\
                     (s_blade s < n)%nat) new.
Proof.
  intros Hl Hs. unfold substep. fold n.
  set (w1 := set_simTime (simTime w + h) w).
  assert (Hw1 : substep_inv st obstacles (simTime w1) w1) by done.
  cbn zeta.
  pose proof (blade_loop_substep_inv StringToNumber sin random
                performance_now st obstacles (omega_of st * simTime w1)
                (Qfloor (omega_of st * simTime w1 / TWO_PI))
                wobbleOmega jitterFactor w1 eq_refl Hw1) as (I1 & I2 & I3).
  destruct (blade_loop_samples StringToNumber sin random
              performance_now st obstacles (omega_of st * simTime w1)
              (Qfloor (omega_of st * simTime w1 / TWO_PI))
              wobbleOmega jitterFactor w1 n) as (_ & _ & new & S1 & S2 & S3).
  fold n in I1, I2, I3. split_and!; [done|done|done|].
  by exists new.
Qed.

Lemma log_inv_ext w w' :
  collisions w' = collisions w -> lastHitRev w' = lastHitRev w ->
  log_inv st w -> log_inv st w'.
Proof.
  intros E1 E2 (H1 & H2 & H3). unfold log_inv, rev_bounded.
  rewrite E1, E2. by split_and!.
Qed.

Lemma log_inv_empty w : collisions w = [] -> log_inv st w.
Proof.
  intros E. unfold log_inv, rev_bounded. rewrite E.
  split_and!; [|done|done]. intros c Hc. by apply elem_of_nil in Hc.
Qed.

Lemma stepSimulation_running dt w :
  0 < dt -> 0 < omega_of st ->
  stepSimulation StringToNumber sin random performance_now st obstacles
    dt w
  = for_loop 0 4
      (fun _ =>
         substep StringToNumber sin random performance_now st obstacles
           (omega_of st) (dt / inject_Z (Z.of_nat 4))
           (TWO_PI * Q_max (wobbleFreqHz st) 0)
           (Qclamp (timingJitter st) 0 1))
      (ensureWobblePhaseSize st (ensureHitStateSize st obstacles w)).
Proof.
  intros Hdt Hom. unfold stepSimulation. fold (omega_of st).
  rewrite (proj2 (Qleb_false dt 0) Hdt).
  by rewrite (proj2 (Qleb_false (omega_of st) 0) Hom).
Qed.

Lemma stepSimulation_idle dt w :
  dt <= 0 \/ omega_of st <= 0 ->
  stepSimulation StringToNumber sin random performance_now st obstacles
    dt w = w.
Proof.
  intros H. unfold stepSimulation. fold (omega_of st).
  destruct (Qleb dt 0) eqn:E1; [done|].
  destruct (Qleb (omega_of st) 0) eqn:E2; [done|].
  apply Qleb_false in E1, E2. lra.
Qed.

Lemma stepSimulation_run_inv dt w :
  run_inv st obstacles w ->
  run_inv st obstacles (stepSimulation StringToNumber sin random performance_now st
             obstacles dt w).
Proof.
  intros [Hl Hc].
  destruct (Qlt_le_dec 0 dt) as [Hdt|Hdt];
    [|rewrite stepSimulation_idle; [done|by left]].
  destruct (Qlt_le_dec 0 (omega_of st)) as [Hom|Hom];
    [|rewrite stepSimulation_idle; [done|by right]].
  rewrite stepSimulation_running by done.
  destruct (ensureHitStateSize_spec w) as (E1 & (_ & E2 & _) & E3).
  destruct (ensureWobblePhaseSize_kept (ensureHitStateSize st obstacles w))
    as (P1 & P2 & _ & _ & P5).
  cbn zeta in *.
  set (w2 := ensureWobblePhaseSize st _) in *.
  assert (Hl2 : log_inv st w2).
  { destruct Hc as [Hc|Hc].
    - apply log_inv_empty. by rewrite P5, E2.
    - apply (log_inv_ext w); [by rewrite P5, E2| |done].
      rewrite P2. by apply E3. }
  assert (Hs2 : hit_sized n m w2).
  { unfold hit_sized. rewrite P1, P2. exact E1. }
  cbn [for_loop].
  repeat match goal with
         | |- run_inv st obstacles (substep _ _ _ _ _ _ _ ?h ?a ?b ?w) =>
             let H := fresh in
             assert (H : log_inv st w /\ hit_sized n m w);
             [|destruct H as [? ?];
               destruct (substep_spec h a b w) as (? & ? & _);
               [done|done|split; [done|by right]]]
         | |- log_inv st (substep _ _ _ _ _ _ _ ?h ?a ?b ?w) /\ _ =>
             let H := fresh in
             assert (H : log_inv st w /\ hit_sized n m w);
             [|destruct H as [? ?];
               destruct (substep_spec h a b w) as (? & ? & _);
               [done|done|split; done]]
         end.
  done.
Qed.

Lemma run_run_inv dts : forall w,
  run_inv st obstacles w ->
  run_inv st obstacles (run StringToNumber sin random performance_now st obstacles
             dts w).
Proof.
  induction dts as [|dt dts IH]; intros w Hw; [done|].
  cbn. apply IH. by apply stepSimulation_run_inv.
Qed.
End Step.

(** ** The detector *)

Lemma omega_of_pos (st : State) : 0 < rpm st -> 0 < omega_of st.
Proof.
  intros H. unfold omega_of. pose proof TWO_PI_pos.
  apply Qmult_lt_0_compat; [|done]. apply Qlt_shift_div_l; lra.
Qed.

Lemma inject_Z_nat_nonneg (k : nat) : 0 <= inject_Z (Z.of_nat k).
Proof. change 0 with (inject_Z 0). rewrite <- Zle_Qle. lia. Qed.

Lemma advance_ge (t h : Q) (k : nat) : 0 <= h -> t <= advance t h k.
Proof. intros Hh. induction k as [|k IH]; cbn; lra. Qed.

Section Kinematics.
Variable StringToNumber : string -> num.
Variable sin : Q -> Q.
Variable random : nat -> Q.
Variable performance_now : nat -> Q.
Variable st : State.
Variable obstacles : list Obstacle.

(** The nominal angle the code computes is the residue of the
    specification, from a time that is not negative on. *)
Lemma blade_angle_nominal (t : Q) (b : nat) :
  0 < omega_of st -> 0 <= t -> (b < Z.to_nat (bladeCount st))%nat ->
  blade_angle st (omega_of st * t) b = nominal_angle st t b.
Proof.
  intros Hom Ht Hb. unfold blade_angle, nominal_angle.
  apply js_rem_nonneg; [|apply TWO_PI_pos].
  assert (0 <= omega_of st * t) by (apply Qmult_le_0_compat; lra).
  assert (0 < inject_Z (bladeCount st)).
  { change 0 with (inject_Z 0). rewrite <- Zlt_Qlt. lia. }
  assert (0 <= TWO_PI * inject_Z (Z.of_nat b) / inject_Z (bladeCount st)).
  { apply Qle_shift_div_l; [done|]. rewrite Qmult_0_l.
    apply Qmult_le_0_compat; [pose proof TWO_PI_pos; lra|].
    apply inject_Z_nat_nonneg. }
  lra.
Qed.

Lemma substep_samples_spec h wobbleOmega jitterFactor w :
  0 < omega_of st -> 0 <= simTime w + h ->
  let w' := substep StringToNumber sin random performance_now st
              obstacles (omega_of st) h wobbleOmega jitterFactor w in
  simTime w' = simTime w + h /\
  exists new, samples w' = new ++ samples w /\
              substep_samples st (simTime w + h) new.
Proof.
  intros Hom Ht.
  destruct (substep_kinematics StringToNumber sin random performance_now
              st obstacles h wobbleOmega jitterFactor w)
    as (T & new & S1 & S2 & S3).
  cbn zeta. split; [done|]. exists new. split; [done|]. split; [done|].
  eapply Forall_impl; [exact S3|]. cbn. intros s (E1 & E2 & E3).
  split; [done|]. rewrite E2. by rewrite blade_angle_nominal.
Qed.

Lemma stepSimulation_kinematics (dt : Q) (w : World) :
  0 < dt -> 0 < omega_of st -> 0 <= simTime w ->
  let h := dt / 4 in
  let t := simTime w in
  let w' := stepSimulation StringToNumber sin random performance_now
              st obstacles dt w in
  simTime w' = t + h + h + h + h /\
  exists s1 s2 s3 s4,
    samples w' = s4 ++ s3 ++ s2 ++ s1 ++ samples w /\
    substep_samples st (t + h) s1 /\
    substep_samples st (t + h + h) s2 /\
    substep_samples st (t + h + h + h) s3 /\
    substep_samples st (t + h + h + h + h) s4.
Proof.
  intros Hdt Hom Ht h t w'. subst w' t.
  rewrite stepSimulation_running by done.
  destruct (ensureHitStateSize_spec st obstacles w)
    as (_ & ((E1 & E2 & _) & _) & _).
  destruct (ensureWobblePhaseSize_kept st
              (ensureHitStateSize st obstacles w)) as (_ & _ & P1 & P2 & _).
  cbn zeta in *.
  set (w0 := ensureWobblePhaseSize st _) in *.
  assert (T0 : simTime w0 = simTime w) by (by rewrite P1, E1).
  assert (S0 : samples w0 = samples w) by (by rewrite P2, E2).
  assert (Hh : 0 < h) by (apply Qlt_shift_div_l; lra).
  change (inject_Z (Z.of_nat 4)) with 4. fold h.
  cbn [for_loop].
  set (wO := TWO_PI * _). set (jF := Qclamp _ _ _).
  destruct (substep_samples_spec h wO jF w0 Hom) as (T1 & s1 & L1 & A1);
    [rewrite T0; lra|].
  cbn zeta in T1, L1. set (w1 := substep _ _ _ _ _ _ _ _ _ _ w0) in *.
  destruct (substep_samples_spec h wO jF w1 Hom) as (T2 & s2 & L2 & A2);
    [rewrite T1, T0; lra|].
  cbn zeta in T2, L2. set (w2 := substep _ _ _ _ _ _ _ _ _ _ w1) in *.
  destruct (substep_samples_spec h wO jF w2 Hom) as (T3 & s3 & L3 & A3);
    [rewrite T2, T1, T0; lra|].
  cbn zeta in T3, L3. set (w3 := substep _ _ _ _ _ _ _ _ _ _ w2) in *.
  destruct (substep_samples_spec h wO jF w3 Hom) as (T4 & s4 & L4 & A4);
    [rewrite T3, T2, T1, T0; lra|].
  cbn zeta in T4, L4.
  rewrite T4, T3, T2, T1, T0. split; [done|].
  exists s1, s2, s3, s4. rewrite L4, L3, L2, L1, S0.
  rewrite T3, T2, T1, T0 in A4. rewrite T2, T1, T0 in A3.
  rewrite T1, T0 in A2. rewrite T0 in A1.
  by split_and!.
Qed.

(** C3.  With [dt > 0], [rpm > 0] and a simulation time that is not
    negative, [stepSimulation] runs four sub-steps of size [dt / 4]:
    the time advances by [dt / 4] four times, and each sub-step
    samples every blade once, in order, at its own time [t], with the
    nominal angle [(ω t + 2π b / bladeCount) mod 2π],
    [ω = (rpm / 60) 2π]. *)
Theorem stepSimulation_four_substeps (dt : Q) (w : World) :
  0 < dt -> 0 < rpm st -> 0 <= simTime w ->
  let h := dt / 4 in
  let t := simTime w in
  let w' := stepSimulation StringToNumber sin random performance_now
              st obstacles dt w in
  simTime w' = t + h + h + h + h /\
  exists s1 s2 s3 s4,
    samples w' = s4 ++ s3 ++ s2 ++ s1 ++ samples w /\
    substep_samples st (t + h) s1 /\
    substep_samples st (t + h + h) s2 /\
    substep_samples st (t + h + h + h) s3 /\
    substep_samples st (t + h + h + h + h) s4.
Proof.
  intros Hdt Hrpm Ht. apply stepSimulation_kinematics; try done.
  by apply omega_of_pos.
Qed.
End Kinematics.

(** Inside the zone: closer to the obstacle than the tolerance. *)
Lemma in_zone_tolerance (a b : Q) :
  Qltb 0 (raw_strength a b) = true
  <-> Qabs (smallestAngleDiff a b) < HIT_ANGLE_TOL.
Proof.
  unfold raw_strength. rewrite Qltb_true.
  set (e := Qabs (smallestAngleDiff a b)).
  assert (Hx : (1 - e / HIT_ANGLE_TOL) == 1 - 4 * e).
  { unfold HIT_ANGLE_TOL. field. }
  assert (Ht : HIT_ANGLE_TOL == 1 # 4) by reflexivity.
  rewrite (Qclamp_comp _ _ Hx), Ht.
  destruct (Qclamp_cases (1 - 4 * e)) as [[A1 A2]|[[A1 A2]|[A1 A2]]];
    rewrite A2; split; intros H; lra.
Qed.

Section Detector.
Variable StringToNumber : string -> num.
Variable sin : Q -> Q.
Variable random : nat -> Q.
Variable performance_now : nat -> Q.
Variable st : State.
Variable obstacles : list Obstacle.

Lemma run_log_inv (w0 : World) (dts : list Q) :
  collisions w0 = [] ->
  log_inv st (run StringToNumber sin random performance_now st obstacles
                dts w0).
Proof.
  intros H0.
  apply (run_run_inv StringToNumber sin random performance_now st
           obstacles dts w0).
  split; [by apply log_inv_empty|by left].
Qed.

(** C2.  A pair is in the zone when the blade is closer to the obstacle
    than the tolerance of 0.25 rad.  A pair pass calls
    [registerCollision] only when the pair was outside the zone before,
    is inside now, and the revolution index is above the one recorded
    for the pair; in any case it records whether the pair is in the
    zone.  In a run that starts with an empty log every logged call
    carries the revolution index [floor(ω simTime / 2π)] of its
    sub-step, and no two calls of one pair carry the same revolution
    index. *)
Theorem edge_triggered_once_per_revolution :
  (forall m revIndex b angle wobble o obs w,
      let inZone :=
        Qltb 0 (raw_strength (angle + wobble) (obstacle_angle obs)) in
      let w' := pair_pass StringToNumber performance_now st m revIndex b
                  angle wobble o obs w in
      (inZone = true <->
       Qabs (smallestAngleDiff (angle + wobble) (obstacle_angle obs))
       < HIT_ANGLE_TOL) /\
      read2 false (wasInHitZone w') b o = inZone /\
      (collisions w' = collisions w \/
       exists c,
         collisions w' = c :: collisions w /\
         c_blade c = b /\ c_obstacle c = o /\
         c_rev c = revIndex /\ c_time c = simTime w /\
         read2 false (wasInHitZone w) b o = false /\ inZone = true /\
         nlt (read2 NInf (lastHitRev w) b o) (Fin (inject_Z revIndex))
         = true)) /\
  (forall w0 dts,
      collisions w0 = [] ->
      let w := run StringToNumber sin random performance_now st obstacles
                 dts w0 in
      Forall (fun c => c_rev c = Qfloor (omega_of st * c_time c / TWO_PI))
             (collisions w) /\
      forall i j c1 c2,
        collisions w !! i = Some c1 -> collisions w !! j = Some c2 ->
        same_pair c1 c2 -> c_rev c1 = c_rev c2 -> i = j).
Proof.
  split.
  - intros m revIndex b angle wobble o obs w inZone w'.
    destruct (pair_pass_spec StringToNumber performance_now st m revIndex b
                angle wobble o obs w) as (_ & Hz & _ & [w1 Hc] & _).
    cbv zeta in Hz, Hc. fold inZone w' in Hz, Hc. split_and!.
    + apply in_zone_tolerance.
    + rewrite Hz. by rewrite decide_True.
    + destruct (fires revIndex inZone b o w) eqn:Hf; [right|by left].
      eexists. split; [exact Hc|]. cbn.
      unfold fires in Hf. apply andb_true_iff in Hf as [Hf H3].
      apply andb_true_iff in Hf as [H1 H2].
      apply negb_true_iff in H1. by split_and!.
  - intros w0 dts H0 w.
    destruct (run_log_inv w0 dts H0) as (_ & Hs & Ht). fold w in Hs, Ht.
    split; [exact Ht|].
    intros i j c1 c2 H1 H2 [P1 P2] Hr.
    destruct (Nat.lt_trichotomy i j) as [Hlt|[Heq|Hgt]]; [|done|].
    + pose proof (rev_sorted_distinct _ Hs i j c1 c2 Hlt H1 H2) as H.
      unfold same_pair in H. lia.
    + pose proof (rev_sorted_distinct _ Hs j i c2 c1 Hgt H2 H1) as H.
      unfold same_pair in H. lia.
Qed.


Lemma blade_pass_no_obstacles baseAngle revIndex wobbleOmega jitterFactor
    b w :
  collisions (blade_pass StringToNumber sin random performance_now st []
                baseAngle revIndex wobbleOmega jitterFactor b w)
  = collisions w.
Proof. reflexivity. Qed.

Lemma substep_quiet h wobbleOmega jitterFactor w :
  (bladeCount st <= 0)%Z \/ obstacles = [] ->
  collisions (substep StringToNumber sin random performance_now st
                obstacles (omega_of st) h wobbleOmega jitterFactor w)
  = collisions w.
Proof.
  intros H. unfold substep.
  apply (for_loop_ind (fun w' => collisions w' = collisions w)); [|done].
  intros b w' Hb Hw'. destruct H as [H| ->]; [lia|].
  by rewrite blade_pass_no_obstacles.
Qed.

(** C9.  With [dt <= 0] or [ω <= 0], [stepSimulation] returns with
    every variable unchanged.  With no blade or no obstacle it calls
    [registerCollision] not once. *)
Theorem stepSimulation_degenerate (dt : Q) (w : World) :
  let w' := stepSimulation StringToNumber sin random performance_now
              st obstacles dt w in
  (dt <= 0 \/ omega_of st <= 0 -> w' = w) /\
  ((bladeCount st <= 0)%Z \/ obstacles = [] ->
   collisions w' = collisions w).
Proof.
  cbn zeta. split; [apply stepSimulation_idle|]. intros H.
  destruct (Qlt_le_dec 0 dt) as [Hdt|Hdt];
    [|rewrite stepSimulation_idle; [done|by left]].
  destruct (Qlt_le_dec 0 (omega_of st)) as [Hom|Hom];
    [|rewrite stepSimulation_idle; [done|by right]].
  rewrite stepSimulation_running by done.
  destruct (ensureHitStateSize_spec st obstacles w) as (_ & (_ & E & _) & _).
  destruct (ensureWobblePhaseSize_kept st
              (ensureHitStateSize st obstacles w)) as (_ & _ & _ & _ & P).
  cbn zeta in E, P. cbn [for_loop].
  rewrite !substep_quiet by done. by rewrite P, E.
Qed.
End Detector.








Section Angles.
Variable StringToNumber : string -> num.
Variable sin : Q -> Q.
Variable random : nat -> Q.
Variable performance_now : nat -> Q.



(** A blade pass adds the wobble to the nominal angle and leaves the
    sum as it is: for a sine that vanishes at 0 and a draw of 0, blade
    0 of the slow fan, at nominal angle [1 # 100], is tested at a
    negative angle. *)
Lemma blade_pass_angle_not_reduced obstacles revIndex w :
  (forall x, x == 0 -> sin x == 0) ->
  random (randomDraws w) == 0 ->
  wobblePhasePerBlade w !! 0%nat = Some 0 ->
  exists s,
    samples (blade_pass StringToNumber sin random performance_now
               wobbling_state obstacles (1 # 100) revIndex (TWO_PI * 0) 1
               0 w)
    = s :: samples w /\
    s_angle s == 1 # 100 /\ s_angle s + s_wobble s < 0.
Proof.
  intros Hsin Hrandom Hphase.
  destruct (blade_pass_samples StringToNumber sin random performance_now
              wobbling_state obstacles (1 # 100) revIndex (TWO_PI * 0) 1
              0 w) as (_ & _ & s & Hs & _ & _ & Ha & Hw).
  exists s. split; [exact Hs|].
  assert (Hangle : s_angle s == 1 # 100).
  { rewrite Ha. vm_compute. reflexivity. }
  split; [exact Hangle|].
  rewrite Hangle, Hw. unfold blade_wobble. rewrite Hphase. cbn [default].
  rewrite (Hsin (TWO_PI * 0 * simTime w + 0)) by ring.
  rewrite Hrandom. vm_compute. reflexivity.
Qed.
End Angles.

(** Dragging a thumb stores [ratio * TWO_PI] with the ratio clamped to
    [[0, 1]]: the stored angles stay in the closed interval. *)
Lemma handlePointerMove_closed_turn index clientX left width obstacles :
  Forall (fun o => 0 <= angle o <= TWO_PI) obstacles ->
  Forall (fun o => 0 <= angle o <= TWO_PI)
         (handlePointerMove index clientX left width obstacles).
Proof.
  intros H. unfold handlePointerMove.
  destruct (Qeq_bool width 0); [done|].
  destruct (obstacles !! index) as [obs|] eqn:E; [|done].
  apply Forall_insert; [done|]. cbn [angle].
  pose proof (Qclamp_range ((clientX - left) / width)) as R.
  pose proof TWO_PI_pos as Hp. split; nra.
Qed.

(** ** The scenario, evaluated *)

(** C1: at threshold 1 a hit of raw strength 1 is accepted with strength
    1, although its raw strength equals the threshold. *)
Lemma full_threshold_full_hit :
  exists w' i p,
    registerCollision no_strings frame_clock (scenario_state 1)
      (Fin 1) scenario_obstacle 0 0 initial_world
    = (w', Accepted (Fin 1) i p) /\
    1 == unit_clamp (hitThreshold (scenario_state 1)) /\ ~ 1 == 0.
Proof.
  eexists _, _, _. split; [vm_compute; reflexivity|]. split; evaluate.
Qed.

(** A hit of raw strength 0.5 at the default threshold 0.12. *)
Lemma registerCollision_gate_witness :
  let st := scenario_state (12 # 100) in
  let thr := unit_clamp (hitThreshold st) in
  (1 # 100 <= 1 # 2 /\ thr <= 1 # 2) /\
  exists s i p w',
    registerCollision no_strings frame_clock st (Fin (1 # 2))
      scenario_obstacle 0 0 initial_world
    = (w', Accepted (Fin s) i p) /\
    0 <= s <= 1 /\
    (1 - thr <= 1 # 100000 -> s == 1) /\
    (1 # 100000 < 1 - thr ->
     s == Qclamp (((1 # 2) - thr) / (1 - thr)) 0 1 /\
     (s == 0 <-> 1 # 2 == thr)) /\
    (1 # 2 == 1 -> thr < 1 -> s == 1).
Proof.
  intros st thr.
  assert (H1 : 1 # 100 <= 1 # 2) by evaluate.
  assert (H2 : thr <= 1 # 2) by evaluate.
  split; [by split|].
  exact (proj2 (registerCollision_gate no_strings frame_clock st (1 # 2)
                  scenario_obstacle 0 0 initial_world) H1 H2).
Defined.

(** Two frames of the scenario: blade 0 starts inside the zone of the
    obstacle and is reported once. *)
Lemma edge_triggered_witness :
  let w := scenario_run (12 # 100) [1 # 60; 1 # 60] in
  collisions initial_world = [] /\
  length (collisions w) = 1%nat /\
  Forall (fun c => c_rev c
                   = Qfloor (omega_of (scenario_state (12 # 100))
                             * c_time c / TWO_PI)) (collisions w) /\
  forall i j c1 c2,
    collisions w !! i = Some c1 -> collisions w !! j = Some c2 ->
    same_pair c1 c2 -> c_rev c1 = c_rev c2 -> i = j.
Proof.
  intros w. split; [reflexivity|]. split; [vm_compute; reflexivity|].
  exact (proj2 (edge_triggered_once_per_revolution no_strings still_sin
                  mid_random frame_clock (scenario_state (12 # 100))
                  scenario_obstacles)
               initial_world [1 # 60; 1 # 60] eq_refl).
Defined.

(** The first frame of the scenario. *)
Lemma four_substeps_witness :
  let st := scenario_state (12 # 100) in
  let h := (1 # 60) / 4 in
  let w' := stepSimulation no_strings still_sin mid_random frame_clock st
              scenario_obstacles (1 # 60) initial_world in
  (0 < 1 # 60 /\ 0 < rpm st /\ 0 <= simTime initial_world) /\
  simTime w' = 0 + h + h + h + h /\
  exists s1 s2 s3 s4,
    samples w' = s4 ++ s3 ++ s2 ++ s1 ++ samples initial_world /\
    substep_samples st (0 + h) s1 /\
    substep_samples st (0 + h + h) s2 /\
    substep_samples st (0 + h + h + h) s3 /\
    substep_samples st (0 + h + h + h + h) s4.
Proof.
  intros st h w'.
  assert (H1 : 0 < 1 # 60) by evaluate.
  assert (H2 : 0 < rpm st) by evaluate.
  assert (H3 : 0 <= simTime initial_world) by evaluate.
  split; [by split_and!|].
  exact (stepSimulation_four_substeps no_strings still_sin mid_random
           frame_clock st scenario_obstacles (1 # 60) initial_world
           H1 H2 H3).
Defined.




(** Dragging the thumb of an obstacle to the right end of the track
    stores a full turn. *)
Lemma drag_to_right_edge_stores_full_turn :
  exists o,
    handlePointerMove 0 300 100 200 scenario_obstacles !! 0%nat = Some o /\
    angle o == TWO_PI /\ ~ in_turn (angle o).
Proof.
  eexists. split; [vm_compute; reflexivity|]. split; [evaluate|].
  intros [_ H]. revert H. evaluate.
Qed.


(** Four raw strengths at the thresholds 0.12 and 0.5. *)
Lemma gate_monotone_witness :
  let raws := [Fin (65 # 100); Fin (3 # 10); Fin (5 # 1000); Fin 1] in
  (0 <= 12 # 100 /\ 12 # 100 < 1 # 2 /\ 1 # 2 <= 1) /\
  (accepted_count no_strings frame_clock (scenario_state (1 # 2))
     scenario_obstacle raws initial_world
   <= accepted_count no_strings frame_clock (scenario_state (12 # 100))
        scenario_obstacle raws initial_world)%nat.
Proof.
  intros raws.
  assert (H1 : 0 <= 12 # 100) by evaluate.
  assert (H2 : 12 # 100 < 1 # 2) by evaluate.
  assert (H3 : 1 # 2 <= 1) by evaluate.
  split; [by split_and!|].
  exact (gate_monotone no_strings frame_clock (scenario_state (12 # 100))
           (scenario_state (1 # 2)) scenario_obstacle raws
           initial_world initial_world (12 # 100) (1 # 2)
           eq_refl eq_refl H1 H2 H3).
Defined.


(** Strengths 0.2 and 0.7 at the default bias 0.4. *)
Lemma getSoftHitLowCutFactor_witness :
  let st := scenario_state (12 # 100) in
  nle (Fin (2 # 10)) (Fin (7 # 10)) = true /\
  exists q1 q2,
    getSoftHitLowCutFactor no_strings st (VNum (Fin (2 # 10))) = Fin q1 /\
    getSoftHitLowCutFactor no_strings st (VNum (Fin (7 # 10))) = Fin q2 /\
    q2 <= q1.
Proof.
  intros st.
  assert (H : nle (Fin (2 # 10)) (Fin (7 # 10)) = true) by reflexivity.
  split; [exact H|].
  eexists _, _. split; [reflexivity|]. split; [reflexivity|].
  exact (proj2 (getSoftHitLowCutFactor_monotone no_strings st)
               (Fin (2 # 10)) (Fin (7 # 10)) _ _ H eq_refl eq_refl).
Defined.

(** After the first frame of the scenario: a frame of no duration, and
    a frame without obstacles. *)
Lemma stepSimulation_degenerate_witness :
  let st := scenario_state (12 # 100) in
  let w := scenario_run (12 # 100) [1 # 60] in
  (0 <= 0 \/ omega_of st <= 0) /\
  stepSimulation no_strings still_sin mid_random frame_clock st
    scenario_obstacles 0 w = w /\
  collisions (stepSimulation no_strings still_sin mid_random frame_clock st
                [] (1 # 60) w) = collisions w.
Proof.
  intros st w.
  assert (H : 0 <= 0 \/ omega_of st <= 0) by (left; evaluate).
  split; [exact H|]. split.
  - exact (proj1 (stepSimulation_degenerate no_strings still_sin mid_random
                    frame_clock st scenario_obstacles 0 w) H).
  - exact (proj2 (stepSimulation_degenerate no_strings still_sin mid_random
                    frame_clock st [] (1 # 60) w) (or_intror eq_refl)).
Defined.

